(** * Crypt Vault: AES-256-CBC engine, SHA-256 and byte codecs

    A shallow embedding of the cryptographic core of [Crypt-Vault.cpp]:
    the SHA-256 digest, the AES-256 block cipher with its key schedule,
    PKCS#7 padding, the hex codec and the CBC encrypt / decrypt drivers of
    [AESCipher].

    Conventions.
    - An [unsigned char] is a [byte] of the standard library; where C
      promotes to [int] and truncates on store, the truncation is [u8].
    - A [uint32] is an [N] kept below [2^32] by [wrap32].
    - A [std::vector<unsigned char>], a C array and a [std::string] used as
      bytes are [list byte]; reads are [nth] with default [x00].
    - A counted [for] loop is a left fold of its body over the list of the
      values its index takes. *)

From Stdlib Require Import String Ascii.
From Stdlib Require Import List NArith ZArith Arith Lia Bool.
From Stdlib Require Import Strings.Byte.
From Stdlib Require Import Morphisms.
From AAC_tactics Require Import AAC.
Import ListNotations.

Set Implicit Arguments.

(** [String] also exports a [length]; in this file [length] is the list one. *)
Abbreviation length := List.length (only parsing).

(* ================================================================== *)
(** ** Machine-level helpers *)
(* ================================================================== *)

(** Truncation of an [int] value to [unsigned char]. *)
Definition u8 (n : N) : byte :=
  match Byte.of_N (n mod 256) with
  | Some b => b
  | None => x00
  end.

(** [a ^ b] on two [unsigned char]s. *)
Definition bxor (a b : byte) : byte :=
  u8 (N.lxor (Byte.to_N a) (Byte.to_N b)).

(** [for (i = lo; i < hi; i++) body] as a fold over the index values. *)
Definition for_range {S : Type} (lo hi : nat) (body : nat -> S -> S) (s : S) : S :=
  fold_left (fun acc i => body i acc) (seq lo (hi - lo)) s.

(** The values taken by [i] in [for (i = lo; i < hi; i += step)]. *)
Definition range_step (lo hi step : nat) : list nat :=
  map (fun k => lo + k * step) (seq 0 ((hi - lo + (step - 1)) / step)).

(** [a[i]] for an array of bytes. *)
Definition rd (a : list byte) (i : nat) : byte := nth i a x00.

(** [a[i] = v] for an array of bytes; the code never writes out of range. *)
Fixpoint wr (a : list byte) (i : nat) (v : byte) : list byte :=
  match a, i with
  | [], _ => []
  | _ :: t, O => v :: t
  | h :: t, S i' => h :: wr t i' v
  end.

(** The [n] bytes starting at offset [off] ([memcpy(dst, src + off, n)]). *)
Definition slice (a : list byte) (off n : nat) : list byte :=
  map (fun j => rd a (off + j)) (seq 0 n).

(* ================================================================== *)
(** ** SHA-256 ([namespace SHA256Impl]) *)
(* ================================================================== *)

Module SHA256Impl.
Local Open Scope N_scope.

Definition wrap32 (x : N) : N := x mod 4294967296.
Definition wrap64 (x : N) : N := x mod 18446744073709551616.

(** [static const uint32 K[64]], one line of the table per row. *)
Definition K : list N :=
  [0x428a2f98; 0x71374491; 0xb5c0fbcf; 0xe9b5dba5; 0x3956c25b; 0x59f111f1; 0x923f82a4; 0xab1c5ed5]
  ++ [0xd807aa98; 0x12835b01; 0x243185be; 0x550c7dc3; 0x72be5d74; 0x80deb1fe; 0x9bdc06a7; 0xc19bf174]
  ++ [0xe49b69c1; 0xefbe4786; 0x0fc19dc6; 0x240ca1cc; 0x2de92c6f; 0x4a7484aa; 0x5cb0a9dc; 0x76f988da]
  ++ [0x983e5152; 0xa831c66d; 0xb00327c8; 0xbf597fc7; 0xc6e00bf3; 0xd5a79147; 0x06ca6351; 0x14292967]
  ++ [0x27b70a85; 0x2e1b2138; 0x4d2c6dfc; 0x53380d13; 0x650a7354; 0x766a0abb; 0x81c2c92e; 0x92722c85]
  ++ [0xa2bfe8a1; 0xa81a664b; 0xc24b8b70; 0xc76c51a3; 0xd192e819; 0xd6990624; 0xf40e3585; 0x106aa070]
  ++ [0x19a4c116; 0x1e376c08; 0x2748774c; 0x34b0bcb5; 0x391c0cb3; 0x4ed8aa4a; 0x5b9cca4f; 0x682e6ff3]
  ++ [0x748f82ee; 0x78a5636f; 0x84c87814; 0x8cc70208; 0x90befffa; 0xa4506ceb; 0xbef9a3f7; 0xc67178f2].

Definition not32 (x : N) : N := N.lxor x 0xffffffff.
Definition add32 (x y : N) : N := wrap32 (x + y).

Definition rotr (x n : N) : N :=
  N.lor (N.shiftr x n) (wrap32 (N.shiftl x (32 - n))).
Definition ch (x y z : N) : N := N.lxor (N.land x y) (N.land (not32 x) z).
Definition maj (x y z : N) : N :=
  N.lxor (N.lxor (N.land x y) (N.land x z)) (N.land y z).
Definition sig0 (x : N) : N := N.lxor (N.lxor (rotr x 2) (rotr x 13)) (rotr x 22).
Definition sig1 (x : N) : N := N.lxor (N.lxor (rotr x 6) (rotr x 11)) (rotr x 25).
Definition gam0 (x : N) : N := N.lxor (N.lxor (rotr x 7) (rotr x 18)) (N.shiftr x 3).
Definition gam1 (x : N) : N := N.lxor (N.lxor (rotr x 17) (rotr x 19)) (N.shiftr x 10).

(** [while ((msg.size() % 64) != 56) msg.push_back(0x00);] *)
Fixpoint pad_zeros (fuel : nat) (msg : list byte) : list byte :=
  match fuel with
  | O => msg
  | S fuel' =>
      if Nat.eqb (Nat.modulo (length msg) 64) 56 then msg
      else pad_zeros fuel' (msg ++ [x00])
  end.

(** The padded message: [0x80], zeros up to 56 mod 64, then the bit
    length as eight big-endian bytes. *)
Definition padded_message (data : list byte) : list byte :=
  let bitlen := wrap64 (N.of_nat (length data) * 8) in
  let msg := data ++ [x80] in
  let msg := pad_zeros 64 msg in
  fold_left (fun m i => m ++ [u8 (N.shiftr bitlen (N.of_nat i * 8))])
            (rev (seq 0 8)) msg.

Definition wN (w : list N) (i : nat) : N := nth i w 0.

(** The message schedule [w[0..64)] of the block at offset [off]. *)
Definition schedule (msg : list byte) (off : nat) : list N :=
  let b k := Byte.to_N (rd msg (off + k)) in
  let w := map (fun i =>
                  N.lor (N.lor (N.lor (N.shiftl (b (i*4)%nat) 24)
                                      (N.shiftl (b (i*4+1)%nat) 16))
                               (N.shiftl (b (i*4+2)%nat) 8))
                        (b (i*4+3)%nat))
               (seq 0 16) in
  for_range 16 64
    (fun i w =>
       w ++ [add32 (add32 (add32 (gam1 (wN w (i-2))) (wN w (i-7)))
                          (gam0 (wN w (i-15))))
                   (wN w (i-16))])
    w.

Record vars := Vars { va : N; vb : N; vc : N; vd : N;
                      ve : N; vf : N; vg : N; vh : N }.

Definition round (w : list N) (i : nat) (v : vars) : vars :=
  let '(Vars a b c d e f g hh) := v in
  let t1 := add32 (add32 (add32 (add32 hh (sig1 e)) (ch e f g)) (wN K i)) (wN w i) in
  let t2 := add32 (sig0 a) (maj a b c) in
  Vars (add32 t1 t2) a b c (add32 d t1) e f g.

Definition compress (msg : list byte) (off : nat) (h : vars) : vars :=
  let w := schedule msg off in
  let v := for_range 0 64 (round w) h in
  Vars (add32 (va h) (va v)) (add32 (vb h) (vb v))
       (add32 (vc h) (vc v)) (add32 (vd h) (vd v))
       (add32 (ve h) (ve v)) (add32 (vf h) (vf v))
       (add32 (vg h) (vg v)) (add32 (vh h) (vh v)).

Definition h_init : vars :=
  Vars 0x6a09e667 0xbb67ae85 0x3c6ef372 0xa54ff53a
       0x510e527f 0x9b05688c 0x1f83d9ab 0x5be0cd19.

Definition word_bytes (x : N) : list byte :=
  [u8 (N.land (N.shiftr x 24) 0xff); u8 (N.land (N.shiftr x 16) 0xff);
   u8 (N.land (N.shiftr x 8) 0xff); u8 (N.land x 0xff)].

(** [vector<unsigned char> hash(const unsigned char* data, size_t len)] *)
Definition hash (data : list byte) : list byte :=
  let msg := padded_message data in
  let h := fold_left (fun h off => compress msg off h)
                     (range_step 0 (length msg) 64) h_init in
  word_bytes (va h) ++ word_bytes (vb h) ++ word_bytes (vc h) ++
  word_bytes (vd h) ++ word_bytes (ve h) ++ word_bytes (vf h) ++
  word_bytes (vg h) ++ word_bytes (vh h).
End SHA256Impl.

(* ================================================================== *)
(** ** AES-256 ([namespace AES256Impl]) *)
(* ================================================================== *)

Module AES256Impl.

Definition sbox_table : list byte :=
  [x63;x7c;x77;x7b;xf2;x6b;x6f;xc5;x30;x01;x67;x2b;xfe;xd7;xab;x76;
   xca;x82;xc9;x7d;xfa;x59;x47;xf0;xad;xd4;xa2;xaf;x9c;xa4;x72;xc0;
   xb7;xfd;x93;x26;x36;x3f;xf7;xcc;x34;xa5;xe5;xf1;x71;xd8;x31;x15;
   x04;xc7;x23;xc3;x18;x96;x05;x9a;x07;x12;x80;xe2;xeb;x27;xb2;x75;
   x09;x83;x2c;x1a;x1b;x6e;x5a;xa0;x52;x3b;xd6;xb3;x29;xe3;x2f;x84;
   x53;xd1;x00;xed;x20;xfc;xb1;x5b;x6a;xcb;xbe;x39;x4a;x4c;x58;xcf;
   xd0;xef;xaa;xfb;x43;x4d;x33;x85;x45;xf9;x02;x7f;x50;x3c;x9f;xa8;
   x51;xa3;x40;x8f;x92;x9d;x38;xf5;xbc;xb6;xda;x21;x10;xff;xf3;xd2;
   xcd;x0c;x13;xec;x5f;x97;x44;x17;xc4;xa7;x7e;x3d;x64;x5d;x19;x73;
   x60;x81;x4f;xdc;x22;x2a;x90;x88;x46;xee;xb8;x14;xde;x5e;x0b;xdb;
   xe0;x32;x3a;x0a;x49;x06;x24;x5c;xc2;xd3;xac;x62;x91;x95;xe4;x79;
   xe7;xc8;x37;x6d;x8d;xd5;x4e;xa9;x6c;x56;xf4;xea;x65;x7a;xae;x08;
   xba;x78;x25;x2e;x1c;xa6;xb4;xc6;xe8;xdd;x74;x1f;x4b;xbd;x8b;x8a;
   x70;x3e;xb5;x66;x48;x03;xf6;x0e;x61;x35;x57;xb9;x86;xc1;x1d;x9e;
   xe1;xf8;x98;x11;x69;xd9;x8e;x94;x9b;x1e;x87;xe9;xce;x55;x28;xdf;
   x8c;xa1;x89;x0d;xbf;xe6;x42;x68;x41;x99;x2d;x0f;xb0;x54;xbb;x16].

Definition rsbox_table : list byte :=
  [x52;x09;x6a;xd5;x30;x36;xa5;x38;xbf;x40;xa3;x9e;x81;xf3;xd7;xfb;
   x7c;xe3;x39;x82;x9b;x2f;xff;x87;x34;x8e;x43;x44;xc4;xde;xe9;xcb;
   x54;x7b;x94;x32;xa6;xc2;x23;x3d;xee;x4c;x95;x0b;x42;xfa;xc3;x4e;
   x08;x2e;xa1;x66;x28;xd9;x24;xb2;x76;x5b;xa2;x49;x6d;x8b;xd1;x25;
   x72;xf8;xf6;x64;x86;x68;x98;x16;xd4;xa4;x5c;xcc;x5d;x65;xb6;x92;
   x6c;x70;x48;x50;xfd;xed;xb9;xda;x5e;x15;x46;x57;xa7;x8d;x9d;x84;
   x90;xd8;xab;x00;x8c;xbc;xd3;x0a;xf7;xe4;x58;x05;xb8;xb3;x45;x06;
   xd0;x2c;x1e;x8f;xca;x3f;x0f;x02;xc1;xaf;xbd;x03;x01;x13;x8a;x6b;
   x3a;x91;x11;x41;x4f;x67;xdc;xea;x97;xf2;xcf;xce;xf0;xb4;xe6;x73;
   x96;xac;x74;x22;xe7;xad;x35;x85;xe2;xf9;x37;xe8;x1c;x75;xdf;x6e;
   x47;xf1;x1a;x71;x1d;x29;xc5;x89;x6f;xb7;x62;x0e;xaa;x18;xbe;x1b;
   xfc;x56;x3e;x4b;xc6;xd2;x79;x20;x9a;xdb;xc0;xfe;x78;xcd;x5a;xf4;
   x1f;xdd;xa8;x33;x88;x07;xc7;x31;xb1;x12;x10;x59;x27;x80;xec;x5f;
   x60;x51;x7f;xa9;x19;xb5;x4a;x0d;x2d;xe5;x7a;x9f;x93;xc9;x9c;xef;
   xa0;xe0;x3b;x4d;xae;x2a;xf5;xb0;xc8;xeb;xbb;x3c;x83;x53;x99;x61;
   x17;x2b;x04;x7e;xba;x77;xd6;x26;xe1;x69;x14;x63;x55;x21;x0c;x7d].

Definition rcon : list byte :=
  [x00;x01;x02;x04;x08;x10;x20;x40;x80;x1b;x36].

(** [sbox[x]] and [rsbox[x]]: the index is an [unsigned char]. *)
Definition sbox (x : byte) : byte := rd sbox_table (Byte.to_nat x).
Definition rsbox (x : byte) : byte := rd rsbox_table (Byte.to_nat x).

Definition xtime (x : byte) : byte :=
  u8 (N.lxor (N.shiftl (Byte.to_N x) 1)
             (if N.eqb (N.land (N.shiftr (Byte.to_N x) 7) 1) 0 then 0 else 0x1b)%N).

(** One iteration of the loop of [gmul] on its locals [(p, a, b)]. *)
Definition gmul_step (s : byte * byte * byte) : byte * byte * byte :=
  let '(p, a, b) := s in
  let p := if N.eqb (N.land (Byte.to_N b) 1) 0 then p else bxor p a in
  (p, xtime a, u8 (N.shiftr (Byte.to_N b) 1)).

Definition gmul (a b : byte) : byte :=
  let '(p, _, _) := for_range 0 8 (fun _ => gmul_step) (x00, a, b) in p.

(** [struct Context]. *)
Record Context := { roundKey : list byte; Nr : nat }.

(** [state[r][c]] of an [unsigned char state[4][4]], stored row by row. *)
Definition get2 (state : list byte) (r c : nat) : byte := rd state (r * 4 + c).
Definition set2 (state : list byte) (r c : nat) (v : byte) : list byte :=
  wr state (r * 4 + c) v.

(** [keyExpansion]: the array [roundKey[240]] starts out unspecified in
    C; here it starts as zeros, and every cell is written before it is
    read. *)
Definition keyExpansion_step (Nk : nat) (i : nat) (rk : list byte) : list byte :=
  let temp := slice rk ((i - 1) * 4) 4 in
  let temp :=
    if Nat.eqb (i mod Nk) 0 then
      let t := rd temp 0 in
      let temp := wr temp 0 (bxor (sbox (rd temp 1)) (rd rcon (i / Nk))) in
      let temp := wr temp 1 (sbox (rd temp 2)) in
      let temp := wr temp 2 (sbox (rd temp 3)) in
      wr temp 3 (sbox t)
    else if Nat.eqb (i mod Nk) 4 then
      for_range 0 4 (fun j temp => wr temp j (sbox (rd temp j))) temp
    else temp in
  for_range 0 4
    (fun j rk => wr rk (i * 4 + j) (bxor (rd rk ((i - Nk) * 4 + j)) (rd temp j)))
    rk.

Definition keyExpansion (key : list byte) : Context :=
  let Nr := 14 in
  let Nk := 8 in
  let rk := slice key 0 32 ++ repeat x00 208 in
  {| roundKey := for_range Nk (4 * (Nr + 1)) (keyExpansion_step Nk) rk;
     Nr := Nr |}.

Definition addRoundKey (ctx : Context) (state : list byte) (round : nat) : list byte :=
  for_range 0 4
    (fun i state =>
       for_range 0 4
         (fun j state =>
            set2 state j i
                 (bxor (get2 state j i) (rd (roundKey ctx) (round * 16 + i * 4 + j))))
         state)
    state.

Definition subBytes (state : list byte) : list byte :=
  for_range 0 4
    (fun i state =>
       for_range 0 4 (fun j state => set2 state i j (sbox (get2 state i j))) state)
    state.

Definition invSubBytes (state : list byte) : list byte :=
  for_range 0 4
    (fun i state =>
       for_range 0 4 (fun j state => set2 state i j (rsbox (get2 state i j))) state)
    state.

Definition shiftRows (state : list byte) : list byte :=
  let t := get2 state 1 0 in
  let state := set2 state 1 0 (get2 state 1 1) in
  let state := set2 state 1 1 (get2 state 1 2) in
  let state := set2 state 1 2 (get2 state 1 3) in
  let state := set2 state 1 3 t in
  let t := get2 state 2 0 in
  let state := set2 state 2 0 (get2 state 2 2) in
  let state := set2 state 2 2 t in
  let t := get2 state 2 1 in
  let state := set2 state 2 1 (get2 state 2 3) in
  let state := set2 state 2 3 t in
  let t := get2 state 3 3 in
  let state := set2 state 3 3 (get2 state 3 2) in
  let state := set2 state 3 2 (get2 state 3 1) in
  let state := set2 state 3 1 (get2 state 3 0) in
  set2 state 3 0 t.

Definition invShiftRows (state : list byte) : list byte :=
  let t := get2 state 1 3 in
  let state := set2 state 1 3 (get2 state 1 2) in
  let state := set2 state 1 2 (get2 state 1 1) in
  let state := set2 state 1 1 (get2 state 1 0) in
  let state := set2 state 1 0 t in
  let t := get2 state 2 0 in
  let state := set2 state 2 0 (get2 state 2 2) in
  let state := set2 state 2 2 t in
  let t := get2 state 2 1 in
  let state := set2 state 2 1 (get2 state 2 3) in
  let state := set2 state 2 3 t in
  let t := get2 state 3 0 in
  let state := set2 state 3 0 (get2 state 3 1) in
  let state := set2 state 3 1 (get2 state 3 2) in
  let state := set2 state 3 2 (get2 state 3 3) in
  set2 state 3 3 t.

(** [mixColumns]: the one-byte [memcpy] into [a] is overwritten at once by
    [a[0] = state[0][i]] and is left out. *)
Definition mixColumns (state : list byte) : list byte :=
  for_range 0 4
    (fun i state =>
       let a0 := get2 state 0 i in
       let a1 := get2 state 1 i in
       let a2 := get2 state 2 i in
       let a3 := get2 state 3 i in
       let state := set2 state 0 i (bxor (bxor (bxor (gmul a0 x02) (gmul a1 x03)) a2) a3) in
       let state := set2 state 1 i (bxor (bxor (bxor a0 (gmul a1 x02)) (gmul a2 x03)) a3) in
       let state := set2 state 2 i (bxor (bxor (bxor a0 a1) (gmul a2 x02)) (gmul a3 x03)) in
       set2 state 3 i (bxor (bxor (bxor (gmul a0 x03) a1) a2) (gmul a3 x02)))
    state.

Definition invMixColumns (state : list byte) : list byte :=
  for_range 0 4
    (fun i state =>
       let a0 := get2 state 0 i in
       let a1 := get2 state 1 i in
       let a2 := get2 state 2 i in
       let a3 := get2 state 3 i in
       let state := set2 state 0 i
         (bxor (bxor (bxor (gmul a0 x0e) (gmul a1 x0b)) (gmul a2 x0d)) (gmul a3 x09)) in
       let state := set2 state 1 i
         (bxor (bxor (bxor (gmul a0 x09) (gmul a1 x0e)) (gmul a2 x0b)) (gmul a3 x0d)) in
       let state := set2 state 2 i
         (bxor (bxor (bxor (gmul a0 x0d) (gmul a1 x09)) (gmul a2 x0e)) (gmul a3 x0b)) in
       set2 state 3 i
         (bxor (bxor (bxor (gmul a0 x0b) (gmul a1 x0d)) (gmul a2 x09)) (gmul a3 x0e)))
    state.

(** [state[j][i] = block[i*4+j]] for all [i], [j]. *)
Definition load_state (block : list byte) : list byte :=
  for_range 0 4
    (fun i state =>
       for_range 0 4 (fun j state => set2 state j i (rd block (i * 4 + j))) state)
    (repeat x00 16).

(** [block[i*4+j] = state[j][i]] for all [i], [j]. *)
Definition store_state (state block : list byte) : list byte :=
  for_range 0 4
    (fun i block =>
       for_range 0 4 (fun j block => wr block (i * 4 + j) (get2 state j i)) block)
    block.

Definition encrypt_round (ctx : Context) (round : nat) (state : list byte) : list byte :=
  addRoundKey ctx (mixColumns (shiftRows (subBytes state))) round.

Definition decrypt_round (ctx : Context) (round : nat) (state : list byte) : list byte :=
  invMixColumns (addRoundKey ctx (invSubBytes (invShiftRows state)) round).

(** [void encryptBlock(unsigned char block[16])]: the block is updated in
    place; the result is its new content. *)
Definition encryptBlock (ctx : Context) (block : list byte) : list byte :=
  let state := load_state block in
  let state := addRoundKey ctx state 0 in
  let state := for_range 1 (Nr ctx) (encrypt_round ctx) state in
  let state := addRoundKey ctx (shiftRows (subBytes state)) (Nr ctx) in
  store_state state block.

(** [for (int round = Nr - 1; round > 0; round--)] visits
    [Nr-1, ..., 1]. *)
Definition decryptBlock (ctx : Context) (block : list byte) : list byte :=
  let state := load_state block in
  let state := addRoundKey ctx state (Nr ctx) in
  let state := fold_left (fun state round => decrypt_round ctx round state)
                         (rev (seq 1 (Nr ctx - 1))) state in
  let state := addRoundKey ctx (invSubBytes (invShiftRows state)) 0 in
  store_state state block.

End AES256Impl.

(* ================================================================== *)
(** ** Utility functions *)
(* ================================================================== *)

(** [vector<unsigned char> pkcs7Pad(const vector<unsigned char>& data)] *)
Definition pkcs7Pad (data : list byte) : list byte :=
  let padLen := 16 - length data mod 16 in
  data ++ repeat (u8 (N.of_nat padLen)) padLen.

(** [bool pkcs7Unpad(vector<unsigned char>& data)]: the flag returned and
    the content of [data] afterwards.  The checking loop leaves at the
    first byte that differs from [pad]. *)
Definition pkcs7Unpad (data : list byte) : bool * list byte :=
  if Nat.eqb (length data) 0 || negb (Nat.eqb (length data mod 16) 0) then (false, data)
  else
    let pad := rd data (length data - 1) in
    if Nat.ltb (Byte.to_nat pad) 1 || Nat.ltb 16 (Byte.to_nat pad) then (false, data)
    else if forallb (fun i => Byte.eqb (rd data i) pad)
                    (seq (length data - Byte.to_nat pad) (Byte.to_nat pad))
         then (true, firstn (length data - Byte.to_nat pad) data)
         else (false, data).

(** *** Hex output of a stream: [ss << hex << setfill('0') << setw(2) << n] *)

Definition hex_digit (d : N) : ascii :=
  nth (N.to_nat d) (list_ascii_of_string "0123456789abcdef") "0"%char.

(** The digits of [n] in base 16, most significant first, lowercase and
    without leading zeros, in front of [acc]. *)
Fixpoint hex_digits (fuel : nat) (n : N) (acc : string) : string :=
  match fuel with
  | O => acc
  | S fuel' =>
      let acc := String (hex_digit (n mod 16)) acc in
      if N.eqb (n / 16) 0 then acc else hex_digits fuel' (n / 16)%N acc
  end.

Definition hex_of_int (n : N) : string := hex_digits (S (N.to_nat (N.log2 n))) n "".

(** Right-justify [s] in a field of width [w] filled with [c]. *)
Definition setw_setfill (w : nat) (c : ascii) (s : string) : string :=
  (string_of_list_ascii (repeat c (w - String.length s)) ++ s)%string.

(** [string bytesToHex(const unsigned char* data, size_t len)] *)
Definition bytesToHex (data : list byte) (len : nat) : string :=
  for_range 0 len
    (fun i ss => (ss ++ setw_setfill 2 "0" (hex_of_int (Byte.to_N (rd data i))))%string)
    ""%string.

(** *** [strtol(s, nullptr, 16)] of the C library

    Leading white space is skipped, then an optional sign and an optional
    [0x] / [0X] prefix (taken only when a hex digit follows), then the
    longest run of hex digits; any other character, the terminating NUL
    included, ends the number.  With no digit the value is 0.  Clamping at
    [LONG_MAX] is left out: the code only passes two characters. *)

Definition isspace (c : ascii) : bool :=
  let n := nat_of_ascii c in Nat.eqb n 32 || (Nat.leb 9 n && Nat.leb n 13).

Definition hex_value (c : ascii) : option Z :=
  let n := Z.of_nat (nat_of_ascii c) in
  if (48 <=? n)%Z && (n <=? 57)%Z then Some (n - 48)%Z
  else if (97 <=? n)%Z && (n <=? 102)%Z then Some (n - 87)%Z
  else if (65 <=? n)%Z && (n <=? 70)%Z then Some (n - 55)%Z
  else None.

Fixpoint skip_spaces (s : string) : string :=
  match s with
  | String c s' => if isspace c then skip_spaces s' else s
  | EmptyString => s
  end.

Fixpoint parse_hex (s : string) (acc : Z) : Z :=
  match s with
  | String c s' =>
      match hex_value c with
      | Some d => parse_hex s' (acc * 16 + d)%Z
      | None => acc
      end
  | EmptyString => acc
  end.

Definition skip_prefix (s : string) : string :=
  match s with
  | String c0 (String c1 (String c2 s')) =>
      if Ascii.eqb c0 "0" && (Ascii.eqb c1 "x" || Ascii.eqb c1 "X")
      then match hex_value c2 with
           | Some _ => String c2 s'
           | None => s
           end
      else s
  | _ => s
  end.

Definition strtol16 (s : string) : Z :=
  let s := skip_spaces s in
  let '(neg, s) :=
    match s with
    | String c s' =>
        if Ascii.eqb c "-" then (true, s')
        else if Ascii.eqb c "+" then (false, s')
        else (false, s)
    | EmptyString => (false, s)
    end in
  let v := parse_hex (skip_prefix s) 0 in
  if neg then (- v)%Z else v.

(** [vector<unsigned char> hexToBytes(const string& hex)] *)
Definition hexToBytes (hex : string) : list byte :=
  fold_left
    (fun bytes i =>
       let b := u8 (Z.to_N (strtol16 (substring i 2 hex) mod 256)) in
       bytes ++ [b])
    (range_step 0 (String.length hex - 1) 2) [].

(* ================================================================== *)
(** ** The cipher ([class AESCipher]) *)
(* ================================================================== *)

(** The three ways an operation gives up; the code reports each of them
    by returning an empty vector. *)
Inductive failure : Type :=
| RandomGenerationFailure
| InvalidCiphertextLength
| InvalidPadding.

(** Which [return] statement an operation leaves by. *)
Inductive outcome : Type :=
| Failed (f : failure)      (* [return {};] *)
| Returned (v : list byte). (* [return result;] *)

(** The vector the caller receives. *)
Definition value_of (o : outcome) : list byte :=
  match o with
  | Failed _ => []
  | Returned v => v
  end.

Record AESCipher := { key : list byte; ctx : AES256Impl.Context }.

(** [void setKey(const string& password)] *)
Definition setKey (password : list byte) : AESCipher :=
  let hash := SHA256Impl.hash password in
  let key := slice hash 0 32 in
  {| key := key; ctx := AES256Impl.keyExpansion key |}.

(** The body of the loop of [encrypt] on its locals [(result, prev)]. *)
Definition encrypt_step (c : AESCipher) (padded : list byte) (i : nat)
           (s : list byte * list byte) : list byte * list byte :=
  let '(result, prev) := s in
  let block := map (fun j => bxor (rd padded (i + j)) (rd prev j)) (seq 0 16) in
  let block := AES256Impl.encryptBlock (ctx c) block in
  (result ++ block, block).

(** [encrypt], by the [return] it leaves through.  [rnd] is what
    [generateRandomBytes(iv, 16)] did: [None] when it returned [false],
    [Some iv] when it returned [true] having filled [iv]. *)
Definition encrypt_outcome (c : AESCipher) (rnd : option (list byte))
           (plaintext : list byte) : outcome :=
  let padded := pkcs7Pad plaintext in
  match rnd with
  | None => Failed RandomGenerationFailure
  | Some iv =>
      let result := iv in
      let prev := iv in
      Returned (fst (fold_left (fun s i => encrypt_step c padded i s)
                               (range_step 0 (length padded) 16)
                               (result, prev)))
  end.

(** [vector<unsigned char> encrypt(const vector<unsigned char>& plaintext)] *)
Definition encrypt (c : AESCipher) (rnd : option (list byte))
           (plaintext : list byte) : list byte :=
  value_of (encrypt_outcome c rnd plaintext).

(** The body of the loop of [decrypt] on its locals [(result, prev)]. *)
Definition decrypt_step (c : AESCipher) (ciphertext : list byte) (i : nat)
           (s : list byte * list byte) : list byte * list byte :=
  let '(result, prev) := s in
  let block := slice ciphertext i 16 in
  let enc := block in
  let block := AES256Impl.decryptBlock (ctx c) block in
  let block := map (fun j => bxor (rd block j) (rd prev j)) (seq 0 16) in
  (result ++ block, enc).

(** [decrypt], by the [return] it leaves through. *)
Definition decrypt_outcome (c : AESCipher) (ciphertext : list byte) : outcome :=
  if Nat.ltb (length ciphertext) 32
     || negb (Nat.eqb ((length ciphertext - 16) mod 16) 0)
  then Failed InvalidCiphertextLength
  else
    let prev := slice ciphertext 0 16 in
    let result :=
      fst (fold_left (fun s i => decrypt_step c ciphertext i s)
                     (range_step 16 (length ciphertext) 16)
                     ([], prev)) in
    match pkcs7Unpad result with
    | (false, _) => Failed InvalidPadding
    | (true, result) => Returned result
    end.

(** [vector<unsigned char> decrypt(const vector<unsigned char>& ciphertext)] *)
Definition decrypt (c : AESCipher) (ciphertext : list byte) : list byte :=
  value_of (decrypt_outcome c ciphertext).

(** [string encryptText(const string& text)] *)
Definition encryptText (c : AESCipher) (rnd : option (list byte))
           (text : list byte) : string :=
  let enc := encrypt c rnd text in
  bytesToHex enc (length enc).

(** The bytes of a string literal. *)
Definition bytes_of_string (s : string) : list byte := list_byte_of_string s.

(** Every byte, in increasing order. *)
Definition all_bytes : list byte := map (fun n => u8 (N.of_nat n)) (seq 0 256).

(* ================================================================== *)
(** ** Bytes: enumeration and the algebra of [bxor] *)
(* ================================================================== *)

Section ByteFacts.

Lemma to_N_lt (b : byte) : (Byte.to_N b < 256)%N.
Proof. pose proof (Byte.to_N_bounded b). lia. Qed.

Lemma u8_to_N (b : byte) : u8 (Byte.to_N b) = b.
Proof.
  unfold u8. rewrite N.mod_small by apply to_N_lt.
  now rewrite Byte.of_to_N.
Qed.

Lemma to_N_u8 (n : N) : (n < 256)%N -> Byte.to_N (u8 n) = n.
Proof.
  intros Hn. unfold u8. rewrite N.mod_small by assumption.
  destruct (Byte.of_N n) as [b|] eqn:E.
  - now apply Byte.to_of_N.
  - apply Byte.of_N_None_iff in E. lia.
Qed.

Lemma to_N_inj (a b : byte) : Byte.to_N a = Byte.to_N b -> a = b.
Proof. intros H. rewrite <- (u8_to_N a), <- (u8_to_N b). now rewrite H. Qed.

Lemma to_nat_lt (b : byte) : Byte.to_nat b < 256.
Proof. pose proof (Byte.to_nat_bounded b). lia. Qed.

Lemma u8_of_to_nat (b : byte) : u8 (N.of_nat (Byte.to_nat b)) = b.
Proof. rewrite <- Byte.to_N_via_nat. apply u8_to_N. Qed.

Lemma in_all_bytes (b : byte) : In b all_bytes.
Proof.
  unfold all_bytes. rewrite <- (u8_of_to_nat b).
  apply in_map with (f := fun n => u8 (N.of_nat n)).
  apply in_seq. pose proof (to_nat_lt b). lia.
Qed.

(** A boolean property checked on the 256 bytes holds of every byte. *)
Lemma forall_byte (f : byte -> bool) :
  forallb f all_bytes = true -> forall b, f b = true.
Proof.
  intros H b. rewrite forallb_forall in H. apply H, in_all_bytes.
Qed.

Lemma forall_byte2 (f : byte -> byte -> bool) :
  forallb (fun a => forallb (f a) all_bytes) all_bytes = true ->
  forall a b, f a b = true.
Proof.
  intros H a. apply forall_byte. revert a. now apply forall_byte.
Qed.

Lemma to_N_bxor (a b : byte) :
  Byte.to_N (bxor a b) = N.lxor (Byte.to_N a) (Byte.to_N b).
Proof.
  apply N.eqb_eq. revert a b.
  apply (forall_byte2
           (fun a b => N.eqb (Byte.to_N (bxor a b))
                             (N.lxor (Byte.to_N a) (Byte.to_N b)))).
  vm_compute. reflexivity.
Qed.

Lemma bxor_comm (a b : byte) : bxor a b = bxor b a.
Proof. apply to_N_inj. rewrite !to_N_bxor. apply N.lxor_comm. Qed.

Lemma bxor_assoc (a b c : byte) : bxor a (bxor b c) = bxor (bxor a b) c.
Proof. apply to_N_inj. rewrite !to_N_bxor. symmetry. apply N.lxor_assoc. Qed.

Lemma bxor_nilpotent (a : byte) : bxor a a = x00.
Proof. apply to_N_inj. rewrite to_N_bxor. apply N.lxor_nilpotent. Qed.

Lemma bxor_0_l (a : byte) : bxor x00 a = a.
Proof. apply to_N_inj. rewrite to_N_bxor. apply N.lxor_0_l. Qed.

Lemma bxor_0_r (a : byte) : bxor a x00 = a.
Proof. rewrite bxor_comm. apply bxor_0_l. Qed.

(** Xoring twice with the same byte gives the byte back. *)
Lemma bxor_involutive (a k : byte) : bxor (bxor a k) k = a.
Proof. now rewrite <- bxor_assoc, bxor_nilpotent, bxor_0_r. Qed.

Lemma bxor_cancel_r (a b k : byte) : bxor a k = bxor b k -> a = b.
Proof.
  intros H. rewrite <- (bxor_involutive a k), H. apply bxor_involutive.
Qed.

Lemma bxor_cancel_l (a b k : byte) : bxor k a = bxor k b -> a = b.
Proof. rewrite !(bxor_comm k). apply bxor_cancel_r. Qed.

End ByteFacts.

#[export] Instance bxor_Associative : Associative eq bxor.
Proof. intros a b c. apply bxor_assoc. Qed.

#[export] Instance bxor_Commutative : Commutative eq bxor.
Proof. intros a b. apply bxor_comm. Qed.

#[export] Instance bxor_Unit : Unit eq bxor x00.
Proof. split; intros a; [apply bxor_0_l | apply bxor_0_r]. Qed.

#[export] Instance bxor_Proper : Proper (eq ==> eq ==> eq) bxor.
Proof. now intros a a' -> b b' ->. Qed.

(** Decide an equation between bytes, in one or two byte variables, by
    running both sides on every byte. *)
Ltac by_bytes1 :=
  let b := fresh "b" in
  intros b; apply Byte.byte_dec_bl; revert b;
  match goal with
  | |- forall b, @?f b = true => apply (forall_byte f)
  end; vm_compute; reflexivity.

Ltac by_bytes2 :=
  let a := fresh "a" in let b := fresh "b" in
  intros a b; apply Byte.byte_dec_bl; revert a b;
  match goal with
  | |- forall a b, @?f a b = true => apply (forall_byte2 f)
  end; vm_compute; reflexivity.

(* ================================================================== *)
(** ** The field arithmetic of AES *)
(* ================================================================== *)

Module AESFacts.
Import AES256Impl.

Lemma rsbox_sbox : forall b, rsbox (sbox b) = b.
Proof. by_bytes1. Qed.

Lemma sbox_rsbox : forall b, sbox (rsbox b) = b.
Proof. by_bytes1. Qed.

Lemma xtime_linear : forall a b, xtime (bxor a b) = bxor (xtime a) (xtime b).
Proof. by_bytes2. Qed.

Definition gp (s : byte * byte * byte) : byte := fst (fst s).
Definition ga (s : byte * byte * byte) : byte := snd (fst s).
Definition gb (s : byte * byte * byte) : byte := snd s.

Lemma gmul_step_linear (p a p' a' b : byte) :
  gmul_step (bxor p p', bxor a a', b) =
  (bxor (gp (gmul_step (p, a, b))) (gp (gmul_step (p', a', b))),
   bxor (ga (gmul_step (p, a, b))) (ga (gmul_step (p', a', b))),
   gb (gmul_step (p, a, b))).
Proof.
  unfold gmul_step, gp, ga, gb.
  destruct (N.eqb (N.land (Byte.to_N b) 1) 0); cbn [fst snd];
    rewrite xtime_linear; [reflexivity|].
  do 2 f_equal. aac_reflexivity.
Qed.

Lemma gmul_step_b (p a p' a' b : byte) :
  gb (gmul_step (p, a, b)) = gb (gmul_step (p', a', b)).
Proof. reflexivity. Qed.

Lemma gmul_loop_linear (l : list nat) :
  forall p a p' a' b,
    let run := fold_left (fun acc (_ : nat) => gmul_step acc) l in
    run (bxor p p', bxor a a', b) =
    (bxor (gp (run (p, a, b))) (gp (run (p', a', b))),
     bxor (ga (run (p, a, b))) (ga (run (p', a', b))),
     gb (run (p, a, b)))
    /\ gb (run (p, a, b)) = gb (run (p', a', b)).
Proof.
  induction l as [|i l IH]; intros p a p' a' b; cbn [fold_left].
  - split; reflexivity.
  - rewrite gmul_step_linear.
    destruct (gmul_step (p, a, b)) as [[P A] B] eqn:E1.
    destruct (gmul_step (p', a', b)) as [[P' A'] B'] eqn:E2.
    assert (HB : B = B').
    { change B with (gb (P, A, B)). change B' with (gb (P', A', B')).
      rewrite <- E1, <- E2. apply gmul_step_b. }
    subst B'. cbn [gp ga gb fst snd]. apply IH.
Qed.

(** Multiplication by a constant distributes over xor. *)
Lemma gmul_linear (a a' b : byte) :
  gmul (bxor a a') b = bxor (gmul a b) (gmul a' b).
Proof.
  unfold gmul, for_range.
  pose proof (gmul_loop_linear (seq 0 (8 - 0)) x00 a x00 a' b) as [H _].
  cbv zeta in H. rewrite bxor_0_l in H. rewrite H.
  destruct (fold_left _ _ (x00, a, b)) as [[P A] B].
  destruct (fold_left _ _ (x00, a', b)) as [[P' A'] B'].
  reflexivity.
Qed.

(** *** One column of MixColumns and of its inverse *)

Definition mix0 (a0 a1 a2 a3 : byte) : byte :=
  bxor (bxor (bxor (gmul a0 x02) (gmul a1 x03)) a2) a3.
Definition mix1 (a0 a1 a2 a3 : byte) : byte :=
  bxor (bxor (bxor a0 (gmul a1 x02)) (gmul a2 x03)) a3.
Definition mix2 (a0 a1 a2 a3 : byte) : byte :=
  bxor (bxor (bxor a0 a1) (gmul a2 x02)) (gmul a3 x03).
Definition mix3 (a0 a1 a2 a3 : byte) : byte :=
  bxor (bxor (bxor (gmul a0 x03) a1) a2) (gmul a3 x02).

Definition imix0 (a0 a1 a2 a3 : byte) : byte :=
  bxor (bxor (bxor (gmul a0 x0e) (gmul a1 x0b)) (gmul a2 x0d)) (gmul a3 x09).
Definition imix1 (a0 a1 a2 a3 : byte) : byte :=
  bxor (bxor (bxor (gmul a0 x09) (gmul a1 x0e)) (gmul a2 x0b)) (gmul a3 x0d).
Definition imix2 (a0 a1 a2 a3 : byte) : byte :=
  bxor (bxor (bxor (gmul a0 x0d) (gmul a1 x09)) (gmul a2 x0e)) (gmul a3 x0b).
Definition imix3 (a0 a1 a2 a3 : byte) : byte :=
  bxor (bxor (bxor (gmul a0 x0b) (gmul a1 x0d)) (gmul a2 x09)) (gmul a3 x0e).

(** A xor of four rows of four terms, read column by column. *)
Lemma regroup16 (t00 t01 t02 t03 t10 t11 t12 t13
                 t20 t21 t22 t23 t30 t31 t32 t33 : byte) :
  bxor (bxor (bxor (bxor (bxor (bxor t00 t01) t02) t03)
                   (bxor (bxor (bxor t10 t11) t12) t13))
             (bxor (bxor (bxor t20 t21) t22) t23))
       (bxor (bxor (bxor t30 t31) t32) t33)
  = bxor (bxor (bxor (bxor (bxor (bxor t00 t10) t20) t30)
                     (bxor (bxor (bxor t01 t11) t21) t31))
               (bxor (bxor (bxor t02 t12) t22) t32))
         (bxor (bxor (bxor t03 t13) t23) t33).
Proof. aac_reflexivity. Qed.

(** After distributing, each of the four groups mentions one input byte
    only and is settled by running it on all bytes. *)
Ltac one_group G a v :=
  replace G with v by (symmetry; clear; revert a; by_bytes1).

Ltac column_product a0 a1 a2 a3 v0 v1 v2 v3 :=
  rewrite !gmul_linear; rewrite regroup16;
  match goal with
  | |- bxor (bxor (bxor ?G0 ?G1) ?G2) ?G3 = _ =>
      one_group G0 a0 v0; one_group G1 a1 v1;
      one_group G2 a2 v2; one_group G3 a3 v3
  end;
  rewrite ?bxor_0_r, ?bxor_0_l; reflexivity.

Section Column.
Variables a0 a1 a2 a3 : byte.

Let m0 := mix0 a0 a1 a2 a3.
Let m1 := mix1 a0 a1 a2 a3.
Let m2 := mix2 a0 a1 a2 a3.
Let m3 := mix3 a0 a1 a2 a3.

Lemma imix0_mix : imix0 m0 m1 m2 m3 = a0.
Proof.
  unfold imix0, m0, m1, m2, m3, mix0, mix1, mix2, mix3.
  column_product a0 a1 a2 a3 a0 x00 x00 x00.
Qed.

Lemma imix1_mix : imix1 m0 m1 m2 m3 = a1.
Proof.
  unfold imix1, m0, m1, m2, m3, mix0, mix1, mix2, mix3.
  column_product a0 a1 a2 a3 x00 a1 x00 x00.
Qed.

Lemma imix2_mix : imix2 m0 m1 m2 m3 = a2.
Proof.
  unfold imix2, m0, m1, m2, m3, mix0, mix1, mix2, mix3.
  column_product a0 a1 a2 a3 x00 x00 a2 x00.
Qed.

Lemma imix3_mix : imix3 m0 m1 m2 m3 = a3.
Proof.
  unfold imix3, m0, m1, m2, m3, mix0, mix1, mix2, mix3.
  column_product a0 a1 a2 a3 x00 x00 x00 a3.
Qed.

Let n0 := imix0 a0 a1 a2 a3.
Let n1 := imix1 a0 a1 a2 a3.
Let n2 := imix2 a0 a1 a2 a3.
Let n3 := imix3 a0 a1 a2 a3.

Lemma mix0_imix : mix0 n0 n1 n2 n3 = a0.
Proof.
  unfold mix0, n0, n1, n2, n3, imix0, imix1, imix2, imix3.
  column_product a0 a1 a2 a3 a0 x00 x00 x00.
Qed.

Lemma mix1_imix : mix1 n0 n1 n2 n3 = a1.
Proof.
  unfold mix1, n0, n1, n2, n3, imix0, imix1, imix2, imix3.
  column_product a0 a1 a2 a3 x00 a1 x00 x00.
Qed.

Lemma mix2_imix : mix2 n0 n1 n2 n3 = a2.
Proof.
  unfold mix2, n0, n1, n2, n3, imix0, imix1, imix2, imix3.
  column_product a0 a1 a2 a3 x00 x00 a2 x00.
Qed.

Lemma mix3_imix : mix3 n0 n1 n2 n3 = a3.
Proof.
  unfold mix3, n0, n1, n2, n3, imix0, imix1, imix2, imix3.
  column_product a0 a1 a2 a3 x00 x00 x00 a3.
Qed.
End Column.

End AESFacts.

(* ================================================================== *)
(** ** The round transforms on a 16-byte state *)
(* ================================================================== *)

Lemma length16_inv (s : list byte) :
  length s = 16 ->
  exists a0 a1 a2 a3 a4 a5 a6 a7 a8 a9 a10 a11 a12 a13 a14 a15,
    s = [a0; a1; a2; a3; a4; a5; a6; a7; a8; a9; a10; a11; a12; a13; a14; a15].
Proof.
  intros H.
  do 16 (destruct s as [|? s]; [discriminate H|]).
  destruct s; [|discriminate H].
  repeat eexists.
Qed.

(** Name the sixteen bytes of a state or block of known length. *)
Ltac explode s H :=
  let a0 := fresh "a" in let a1 := fresh "a" in let a2 := fresh "a" in
  let a3 := fresh "a" in let a4 := fresh "a" in let a5 := fresh "a" in
  let a6 := fresh "a" in let a7 := fresh "a" in let a8 := fresh "a" in
  let a9 := fresh "a" in let a10 := fresh "a" in let a11 := fresh "a" in
  let a12 := fresh "a" in let a13 := fresh "a" in let a14 := fresh "a" in
  let a15 := fresh "a" in
  destruct (length16_inv s H)
    as (a0 & a1 & a2 & a3 & a4 & a5 & a6 & a7 & a8 & a9 & a10 & a11 & a12
        & a13 & a14 & a15 & ->);
  clear H.

Lemma length_wr (a : list byte) (i : nat) (v : byte) : length (wr a i v) = length a.
Proof.
  revert i; induction a as [|h t IH]; intros [|i]; cbn; auto.
Qed.

(** ** Loops that undo one another

    Two loops whose bodies cancel, the second run over the indices in
    reverse order.  The bodies are kept abstract here. *)
Section LoopInverse.
Variable St : Type.
Variable ok : St -> Prop.
Variables f g : nat -> St -> St.
Variable T : St -> St.
Hypothesis f_ok : forall r s, ok s -> ok (f r s).
Hypothesis g_undoes_f : forall r s, ok s -> g r (T (f r s)) = T s.

Lemma fold_left_cons (A B : Type) (h : A -> B -> A) (x : B) (l : list B) (a : A) :
  fold_left h (x :: l) a = fold_left h l (h a x).
Proof. reflexivity. Qed.

Lemma loop_ok (l : list nat) :
  forall s, ok s -> ok (fold_left (fun acc i => f i acc) l s).
Proof.
  induction l as [|r l IH]; intros s Hs.
  - exact Hs.
  - rewrite fold_left_cons. apply IH, f_ok, Hs.
Qed.

Lemma loop_undo (l : list nat) :
  forall s, ok s ->
    fold_left (fun acc i => g i acc) (rev l)
              (T (fold_left (fun acc i => f i acc) l s))
    = T s.
Proof.
  induction l as [|r l IH] using rev_ind; intros s Hs; [reflexivity|].
  rewrite rev_unit, fold_left_app, !fold_left_cons.
  change (fold_left (fun acc i => f i acc) [] ?x) with x.
  rewrite g_undoes_f by now apply loop_ok.
  now apply IH.
Qed.
End LoopInverse.

Module RoundFacts.
Import AES256Impl AESFacts.

(** The round-key byte xored into [state[j][i]] in round [round]. *)
Definition rk_at (ctx : Context) (round i j : nat) : byte :=
  rd (roundKey ctx) (round * 16 + i * 4 + j).

Section Shapes.
Variable ctx : Context.
Variables a0 a1 a2 a3 a4 a5 a6 a7 a8 a9 a10 a11 a12 a13 a14 a15 : byte.

Let st := [a0; a1; a2; a3; a4; a5; a6; a7; a8; a9; a10; a11; a12; a13; a14; a15].

Lemma addRoundKey_eq (round : nat) :
  let k := rk_at ctx round in
  addRoundKey ctx st round =
  [bxor a0 (k 0 0); bxor a1 (k 1 0); bxor a2 (k 2 0); bxor a3 (k 3 0);
   bxor a4 (k 0 1); bxor a5 (k 1 1); bxor a6 (k 2 1); bxor a7 (k 3 1);
   bxor a8 (k 0 2); bxor a9 (k 1 2); bxor a10 (k 2 2); bxor a11 (k 3 2);
   bxor a12 (k 0 3); bxor a13 (k 1 3); bxor a14 (k 2 3); bxor a15 (k 3 3)].
Proof. reflexivity. Qed.

Lemma subBytes_eq : subBytes st = map sbox st.
Proof. reflexivity. Qed.

Lemma invSubBytes_eq : invSubBytes st = map rsbox st.
Proof. reflexivity. Qed.

Lemma shiftRows_eq :
  shiftRows st =
  [a0; a1; a2; a3; a5; a6; a7; a4; a10; a11; a8; a9; a15; a12; a13; a14].
Proof. reflexivity. Qed.

Lemma invShiftRows_eq :
  invShiftRows st =
  [a0; a1; a2; a3; a7; a4; a5; a6; a10; a11; a8; a9; a13; a14; a15; a12].
Proof. reflexivity. Qed.

Lemma mixColumns_eq :
  mixColumns st =
  [mix0 a0 a4 a8 a12; mix0 a1 a5 a9 a13; mix0 a2 a6 a10 a14; mix0 a3 a7 a11 a15;
   mix1 a0 a4 a8 a12; mix1 a1 a5 a9 a13; mix1 a2 a6 a10 a14; mix1 a3 a7 a11 a15;
   mix2 a0 a4 a8 a12; mix2 a1 a5 a9 a13; mix2 a2 a6 a10 a14; mix2 a3 a7 a11 a15;
   mix3 a0 a4 a8 a12; mix3 a1 a5 a9 a13; mix3 a2 a6 a10 a14; mix3 a3 a7 a11 a15].
Proof. reflexivity. Qed.

Lemma invMixColumns_eq :
  invMixColumns st =
  [imix0 a0 a4 a8 a12; imix0 a1 a5 a9 a13; imix0 a2 a6 a10 a14; imix0 a3 a7 a11 a15;
   imix1 a0 a4 a8 a12; imix1 a1 a5 a9 a13; imix1 a2 a6 a10 a14; imix1 a3 a7 a11 a15;
   imix2 a0 a4 a8 a12; imix2 a1 a5 a9 a13; imix2 a2 a6 a10 a14; imix2 a3 a7 a11 a15;
   imix3 a0 a4 a8 a12; imix3 a1 a5 a9 a13; imix3 a2 a6 a10 a14; imix3 a3 a7 a11 a15].
Proof. reflexivity. Qed.

(** The state is the transpose of the block. *)
Lemma load_state_eq :
  load_state st =
  [a0; a4; a8; a12; a1; a5; a9; a13; a2; a6; a10; a14; a3; a7; a11; a15].
Proof. reflexivity. Qed.

Lemma store_state_eq (b0 b1 b2 b3 b4 b5 b6 b7 b8 b9 b10 b11 b12 b13 b14 b15 : byte) :
  store_state st [b0; b1; b2; b3; b4; b5; b6; b7; b8; b9; b10; b11; b12; b13; b14; b15] =
  [a0; a4; a8; a12; a1; a5; a9; a13; a2; a6; a10; a14; a3; a7; a11; a15].
Proof. reflexivity. Qed.
End Shapes.

Create HintDb st16.

Section Inverses.
Variable ctx : Context.
Variable s : list byte.
Hypothesis Hs : length s = 16.

Lemma length_addRoundKey (round : nat) : length (addRoundKey ctx s round) = 16.
Proof. explode s Hs. reflexivity. Qed.

Lemma length_subBytes : length (subBytes s) = 16.
Proof. explode s Hs. reflexivity. Qed.

Lemma length_invSubBytes : length (invSubBytes s) = 16.
Proof. explode s Hs. reflexivity. Qed.

Lemma length_shiftRows : length (shiftRows s) = 16.
Proof. explode s Hs. reflexivity. Qed.

Lemma length_invShiftRows : length (invShiftRows s) = 16.
Proof. explode s Hs. reflexivity. Qed.

Lemma length_mixColumns : length (mixColumns s) = 16.
Proof. explode s Hs. reflexivity. Qed.

Lemma length_invMixColumns : length (invMixColumns s) = 16.
Proof. explode s Hs. reflexivity. Qed.

Lemma addRoundKey_involutive (round : nat) :
  addRoundKey ctx (addRoundKey ctx s round) round = s.
Proof.
  explode s Hs. rewrite !addRoundKey_eq. cbv zeta.
  now rewrite !bxor_involutive.
Qed.

Lemma invSubBytes_subBytes : invSubBytes (subBytes s) = s.
Proof.
  explode s Hs. rewrite subBytes_eq. cbn [map].
  rewrite invSubBytes_eq. cbn [map]. now rewrite !rsbox_sbox.
Qed.

Lemma subBytes_invSubBytes : subBytes (invSubBytes s) = s.
Proof.
  explode s Hs. rewrite invSubBytes_eq. cbn [map].
  rewrite subBytes_eq. cbn [map]. now rewrite !sbox_rsbox.
Qed.

Lemma invShiftRows_shiftRows : invShiftRows (shiftRows s) = s.
Proof. explode s Hs. reflexivity. Qed.

Lemma shiftRows_invShiftRows : shiftRows (invShiftRows s) = s.
Proof. explode s Hs. reflexivity. Qed.

Lemma invMixColumns_mixColumns : invMixColumns (mixColumns s) = s.
Proof.
  explode s Hs. rewrite mixColumns_eq, invMixColumns_eq.
  now rewrite !imix0_mix, !imix1_mix, !imix2_mix, !imix3_mix.
Qed.

Lemma mixColumns_invMixColumns : mixColumns (invMixColumns s) = s.
Proof.
  explode s Hs. rewrite invMixColumns_eq, mixColumns_eq.
  now rewrite !mix0_imix, !mix1_imix, !mix2_imix, !mix3_imix.
Qed.

Lemma length_load_state (b : list byte) : length (load_state b) = 16.
Proof.
  unfold load_state, for_range. cbn [seq Nat.sub fold_left].
  unfold set2. now rewrite !length_wr.
Qed.

Lemma length_store_state (b : list byte) : length (store_state s b) = length b.
Proof.
  unfold store_state, for_range. cbn [seq Nat.sub fold_left].
  now rewrite !length_wr.
Qed.

Lemma load_store_state (b : list byte) :
  length b = 16 -> load_state (store_state s b) = s.
Proof. intros Hb. explode s Hs. explode b Hb. reflexivity. Qed.

(** Writing the state loaded from [s] over any block gives [s]. *)
Lemma store_load_state (b : list byte) :
  length b = 16 -> store_state (load_state s) b = s.
Proof. intros Hb. explode s Hs. explode b Hb. reflexivity. Qed.
End Inverses.

#[export] Hint Resolve length_addRoundKey length_subBytes length_invSubBytes
  length_shiftRows length_invShiftRows length_mixColumns
  length_invMixColumns length_load_state : st16.

Section Rounds.
Variable ctx : Context.

Lemma length_encrypt_round (r : nat) (s : list byte) :
  length s = 16 -> length (encrypt_round ctx r s) = 16.
Proof. intros. unfold encrypt_round. auto with st16. Qed.

Lemma length_decrypt_round (r : nat) (s : list byte) :
  length s = 16 -> length (decrypt_round ctx r s) = 16.
Proof. intros. unfold decrypt_round. auto with st16. Qed.

Definition is_state (s : list byte) : Prop := length s = 16.

Lemma length_encrypt_rounds (l : list nat) (s : list byte) :
  length s = 16 ->
  length (fold_left (fun acc i => encrypt_round ctx i acc) l s) = 16.
Proof.
  apply (loop_ok is_state (encrypt_round ctx) length_encrypt_round).
Qed.

Lemma length_decrypt_rounds (l : list nat) (s : list byte) :
  length s = 16 ->
  length (fold_left (fun acc i => decrypt_round ctx i acc) l s) = 16.
Proof.
  apply (loop_ok is_state (decrypt_round ctx) length_decrypt_round).
Qed.

(** A decryption round undoes an encryption round, up to the
    SubBytes / ShiftRows pair that stands in front of the next one. *)
Lemma decrypt_round_undoes (r : nat) (s : list byte) :
  length s = 16 ->
  decrypt_round ctx r (shiftRows (subBytes (encrypt_round ctx r s)))
  = shiftRows (subBytes s).
Proof.
  intros Hs. unfold decrypt_round, encrypt_round.
  rewrite invShiftRows_shiftRows by auto 10 with st16.
  rewrite invSubBytes_subBytes by auto 10 with st16.
  rewrite addRoundKey_involutive by auto 10 with st16.
  apply invMixColumns_mixColumns. auto with st16.
Qed.

Lemma encrypt_round_undoes (r : nat) (s : list byte) :
  length s = 16 ->
  encrypt_round ctx r (invSubBytes (invShiftRows (decrypt_round ctx r s)))
  = invSubBytes (invShiftRows s).
Proof.
  intros Hs. unfold decrypt_round, encrypt_round.
  rewrite subBytes_invSubBytes by auto 10 with st16.
  rewrite shiftRows_invShiftRows by auto 10 with st16.
  rewrite mixColumns_invMixColumns by auto 10 with st16.
  apply addRoundKey_involutive. auto with st16.
Qed.

Lemma decrypt_rounds_undo (l : list nat) (s : list byte) :
  length s = 16 ->
  fold_left (fun acc i => decrypt_round ctx i acc) (rev l)
    (shiftRows (subBytes (fold_left (fun acc i => encrypt_round ctx i acc) l s)))
  = shiftRows (subBytes s).
Proof.
  apply (loop_undo is_state (encrypt_round ctx) (decrypt_round ctx)
                   (fun s => shiftRows (subBytes s))
                   length_encrypt_round decrypt_round_undoes).
Qed.

Lemma encrypt_rounds_undo (l : list nat) (s : list byte) :
  length s = 16 ->
  fold_left (fun acc i => encrypt_round ctx i acc) l
    (invSubBytes (invShiftRows
       (fold_left (fun acc i => decrypt_round ctx i acc) (rev l) s)))
  = invSubBytes (invShiftRows s).
Proof.
  intros Hs.
  pose proof (loop_undo is_state (decrypt_round ctx) (encrypt_round ctx)
                        (fun s => invSubBytes (invShiftRows s))
                        length_decrypt_round encrypt_round_undoes
                        (rev l) s Hs) as H.
  now rewrite rev_involutive in H.
Qed.

Lemma length_encryptBlock (b : list byte) :
  length (encryptBlock ctx b) = length b.
Proof.
  unfold encryptBlock. apply length_store_state.
Qed.

Lemma length_decryptBlock (b : list byte) :
  length (decryptBlock ctx b) = length b.
Proof.
  unfold decryptBlock. apply length_store_state.
Qed.

(** Decrypting an encrypted block gives the block back, whatever the
    round keys are. *)
Lemma decryptBlock_encryptBlock (b : list byte) :
  length b = 16 -> decryptBlock ctx (encryptBlock ctx b) = b.
Proof.
  intros Hb. unfold decryptBlock.
  assert (Hl : length (load_state (encryptBlock ctx b)) = 16)
    by apply length_load_state.
  unfold encryptBlock in *. unfold for_range in *.
  set (l := seq 1 (Nr ctx - 1)) in *.
  set (s0 := addRoundKey ctx (load_state b) 0) in *.
  assert (H0 : length s0 = 16) by (subst s0; auto with st16).
  pose proof (length_encrypt_rounds l s0 H0) as H1.
  rewrite load_store_state by auto 10 with st16.
  rewrite addRoundKey_involutive by auto 10 with st16.
  rewrite decrypt_rounds_undo by assumption.
  rewrite invShiftRows_shiftRows by auto with st16.
  rewrite invSubBytes_subBytes by assumption.
  subst s0. rewrite addRoundKey_involutive by auto with st16.
  apply store_load_state; [assumption|].
  now rewrite length_store_state.
Qed.

Lemma encryptBlock_decryptBlock (b : list byte) :
  length b = 16 -> encryptBlock ctx (decryptBlock ctx b) = b.
Proof.
  intros Hb. unfold encryptBlock. unfold for_range.
  unfold decryptBlock.
  set (l := seq 1 (Nr ctx - 1)) in *.
  set (s0 := addRoundKey ctx (load_state b) (Nr ctx)) in *.
  assert (H0 : length s0 = 16) by (subst s0; auto with st16).
  pose proof (length_decrypt_rounds (rev l) s0 H0) as H1.
  rewrite load_store_state by auto 10 with st16.
  rewrite addRoundKey_involutive by auto 10 with st16.
  rewrite encrypt_rounds_undo by assumption.
  rewrite subBytes_invSubBytes by auto with st16.
  rewrite shiftRows_invShiftRows by assumption.
  subst s0. rewrite addRoundKey_involutive by auto with st16.
  apply store_load_state; [assumption|].
  now rewrite length_store_state.
Qed.

Lemma decryptBlock_injective (b b' : list byte) :
  length b = 16 -> length b' = 16 ->
  decryptBlock ctx b = decryptBlock ctx b' -> b = b'.
Proof.
  intros Hb Hb' H.
  rewrite <- (encryptBlock_decryptBlock b Hb), H.
  now apply encryptBlock_decryptBlock.
Qed.
End Rounds.

End RoundFacts.

(* ================================================================== *)
(** ** Arrays: reading, writing and slicing *)
(* ================================================================== *)

Section Arrays.

Lemma rd_app_l (a b : list byte) (i : nat) :
  i < length a -> rd (a ++ b) i = rd a i.
Proof. intros. unfold rd. now apply app_nth1. Qed.

Lemma rd_app_r (a b : list byte) (i : nat) :
  rd (a ++ b) (length a + i) = rd b i.
Proof.
  unfold rd. rewrite app_nth2 by lia. f_equal. lia.
Qed.

Lemma rd_repeat (c : byte) (n i : nat) : i < n -> rd (repeat c n) i = c.
Proof. intros. unfold rd. now apply nth_repeat_lt. Qed.

Lemma length_slice (a : list byte) (off n : nat) : length (slice a off n) = n.
Proof. unfold slice. now rewrite length_map, length_seq. Qed.

Lemma rd_slice (a : list byte) (off n j : nat) :
  j < n -> rd (slice a off n) j = rd a (off + j).
Proof.
  intros Hj. unfold slice, rd at 1.
  rewrite (nth_indep _ x00 (rd a (off + 0)))
    by now rewrite length_map, length_seq.
  rewrite (map_nth (fun j => rd a (off + j)) (seq 0 n) 0 j).
  now rewrite seq_nth.
Qed.

(** Two arrays of the same length that read alike are the same. *)
Lemma rd_ext (a b : list byte) :
  length a = length b -> (forall i, i < length a -> rd a i = rd b i) -> a = b.
Proof.
  intros Hl H. apply nth_ext with (d := x00) (d' := x00); assumption.
Qed.

Lemma slice_all (a : list byte) : slice a 0 (length a) = a.
Proof.
  apply rd_ext.
  - apply length_slice.
  - intros i Hi. rewrite length_slice in Hi. now rewrite rd_slice.
Qed.

Lemma slice_app_l (a b : list byte) : slice (a ++ b) 0 (length a) = a.
Proof.
  apply rd_ext.
  - apply length_slice.
  - intros i Hi. rewrite length_slice in Hi.
    rewrite rd_slice by assumption. now apply rd_app_l.
Qed.

Lemma slice_app_r (a b : list byte) (off n : nat) :
  slice (a ++ b) (length a + off) n = slice b off n.
Proof.
  unfold slice. apply map_ext. intros j.
  rewrite <- Nat.add_assoc. apply rd_app_r.
Qed.

Lemma wr_app_l (a b : list byte) (i : nat) (v : byte) :
  i < length a -> wr (a ++ b) i v = wr a i v ++ b.
Proof.
  revert i; induction a as [|h t IH]; intros [|i] Hi; cbn in *;
    try lia; try reflexivity.
  f_equal. apply IH. lia.
Qed.

Lemma wr_app_r (a b : list byte) (i : nat) (v : byte) :
  wr (a ++ b) (length a + i) v = a ++ wr b i v.
Proof.
  induction a as [|h t IH]; cbn; [reflexivity|]. now rewrite IH.
Qed.

Lemma rd_wr_same (a : list byte) (i : nat) (v : byte) :
  i < length a -> rd (wr a i v) i = v.
Proof.
  revert i; induction a as [|h t IH]; intros [|i] Hi; cbn in *;
    try lia; try reflexivity.
  apply IH. lia.
Qed.

End Arrays.

(* ================================================================== *)
(** ** PKCS#7 padding *)
(* ================================================================== *)

Section Padding.

(** The pad length [16 - size % 16]. *)
Definition padLen (data : list byte) : nat := 16 - length data mod 16.

Lemma padLen_range (data : list byte) : 1 <= padLen data <= 16.
Proof.
  unfold padLen. pose proof (Nat.mod_upper_bound (length data) 16). lia.
Qed.

Lemma to_nat_u8 (n : nat) : n < 256 -> Byte.to_nat (u8 (N.of_nat n)) = n.
Proof.
  intros Hn. rewrite Byte.to_nat_via_N, to_N_u8 by lia. apply Nat2N.id.
Qed.

Lemma length_pkcs7Pad (data : list byte) :
  length (pkcs7Pad data) = length data + padLen data.
Proof. unfold pkcs7Pad. now rewrite length_app, repeat_length. Qed.

Lemma length_pkcs7Pad_mod (data : list byte) :
  length (pkcs7Pad data) mod 16 = 0.
Proof.
  rewrite length_pkcs7Pad. unfold padLen.
  pose proof (Nat.mod_upper_bound (length data) 16 ltac:(lia)) as Hr.
  rewrite (Nat.div_mod_eq (length data) 16) at 1.
  replace (16 * (length data / 16) + length data mod 16 + (16 - length data mod 16))
    with ((length data / 16 + 1) * 16) by lia.
  apply Nat.Div0.mod_mul.
Qed.

Lemma forallb_seq_true (f : nat -> bool) (lo n : nat) :
  (forall i, lo <= i < lo + n -> f i = true) -> forallb f (seq lo n) = true.
Proof.
  intros H. apply forallb_forall. intros i Hi. apply in_seq in Hi. auto.
Qed.

Lemma byte_eqb_refl (b : byte) : Byte.eqb b b = true.
Proof. now apply Byte.byte_dec_lb. Qed.

(** Unpadding a padded sequence succeeds and gives the sequence back. *)
Lemma pkcs7Unpad_pkcs7Pad (data : list byte) :
  pkcs7Unpad (pkcs7Pad data) = (true, data).
Proof.
  pose proof (padLen_range data) as Hp.
  pose proof (length_pkcs7Pad data) as Hl.
  pose proof (length_pkcs7Pad_mod data) as Hm.
  unfold pkcs7Unpad. rewrite Hm, Hl.
  replace (Nat.eqb (length data + padLen data) 0) with false
    by (symmetry; apply Nat.eqb_neq; lia).
  cbn [Nat.eqb negb orb].
  assert (Hlast : rd (pkcs7Pad data) (length data + padLen data - 1)
                  = u8 (N.of_nat (padLen data))).
  { unfold pkcs7Pad. fold (padLen data).
    replace (length data + padLen data - 1)
      with (length data + (padLen data - 1)) by lia.
    rewrite rd_app_r. apply rd_repeat. lia. }
  rewrite Hlast, to_nat_u8 by lia.
  replace (Nat.ltb (padLen data) 1) with false
    by (symmetry; apply Nat.ltb_ge; lia).
  replace (Nat.ltb 16 (padLen data)) with false
    by (symmetry; apply Nat.ltb_ge; lia).
  cbn [orb].
  replace (length data + padLen data - padLen data) with (length data) by lia.
  rewrite forallb_seq_true.
  - f_equal. unfold pkcs7Pad.
    rewrite firstn_app, Nat.sub_diag, firstn_all. cbn [firstn].
    apply app_nil_r.
  - intros i Hi. unfold pkcs7Pad. fold (padLen data).
    replace i with (length data + (i - length data)) by lia.
    rewrite rd_app_r, rd_repeat by lia. apply byte_eqb_refl.
Qed.

(** The only sequence that unpads to [P] is the padding of [P]. *)
Lemma pkcs7Unpad_true (X P : list byte) :
  pkcs7Unpad X = (true, P) -> X = pkcs7Pad P.
Proof.
  unfold pkcs7Unpad.
  destruct (Nat.eqb (length X) 0) eqn:E0; [discriminate|].
  destruct (Nat.eqb (length X mod 16) 0) eqn:Em; [|discriminate].
  cbn [negb orb].
  set (p := rd X (length X - 1)).
  destruct (Nat.ltb (Byte.to_nat p) 1) eqn:E1; [discriminate|].
  destruct (Nat.ltb 16 (Byte.to_nat p)) eqn:E2; [discriminate|].
  cbn [orb].
  destruct (forallb _ _) eqn:Ef; [|discriminate].
  intros H. injection H as <-.
  apply Nat.eqb_neq in E0. apply Nat.eqb_eq in Em.
  apply Nat.ltb_ge in E1. apply Nat.ltb_ge in E2.
  set (k := Byte.to_nat p) in *. set (n := length X) in *.
  assert (Hn : n = 16 * (n / 16)).
  { rewrite (Nat.div_mod_eq n 16) at 1. lia. }
  assert (Hq : 1 <= n / 16) by lia.
  assert (Hlen : length (firstn (n - k) X) = n - k).
  { rewrite length_firstn. fold n. lia. }
  assert (Hpad : 16 - (n - k) mod 16 = k).
  { replace (n - k) with ((16 - k) + (n / 16 - 1) * 16) by lia.
    rewrite Nat.Div0.mod_add.
    destruct (Nat.eq_dec k 16) as [->|Hk]; [reflexivity|].
    rewrite Nat.mod_small by lia. lia. }
  unfold pkcs7Pad. rewrite Hlen, Hpad.
  replace (u8 (N.of_nat k)) with p by (symmetry; apply u8_of_to_nat).
  rewrite <- (firstn_skipn (n - k) X) at 1. f_equal.
  apply rd_ext.
  - rewrite length_skipn, repeat_length. fold n. lia.
  - intros i Hi. rewrite length_skipn in Hi. fold n in Hi.
    rewrite rd_repeat by lia.
    unfold rd at 1. rewrite nth_skipn.
    rewrite forallb_forall in Ef.
    apply Byte.byte_dec_bl. apply (Ef (n - k + i)).
    apply in_seq. lia.
Qed.

End Padding.

(* ================================================================== *)
(** ** Cipher block chaining over lists of blocks *)
(* ================================================================== *)

(** [block[j] = a[j] ^ p[j]] for the sixteen [j]. *)
Definition xor16 (a p : list byte) : list byte :=
  map (fun j => bxor (rd a j) (rd p j)) (seq 0 16).

(** A sequence cut into blocks of sixteen bytes. *)
Definition chunks (X : list byte) : list (list byte) :=
  map (fun k => slice X (k * 16) 16) (seq 0 (length X / 16)).

Definition block16 (b : list byte) : Prop := length b = 16.

(** Two lists of blocks that differ in exactly one block. *)
Inductive one_diff : list (list byte) -> list (list byte) -> Prop :=
| one_diff_here (b b' : list byte) (t : list (list byte)) :
    b <> b' -> one_diff (b :: t) (b' :: t)
| one_diff_later (b : list byte) (t t' : list (list byte)) :
    one_diff t t' -> one_diff (b :: t) (b :: t').

Section Xor16.

Lemma length_xor16 (a p : list byte) : length (xor16 a p) = 16.
Proof. unfold xor16. now rewrite length_map, length_seq. Qed.

Lemma rd_xor16 (a p : list byte) (j : nat) :
  j < 16 -> rd (xor16 a p) j = bxor (rd a j) (rd p j).
Proof.
  intros Hj. unfold xor16, rd at 1.
  rewrite (nth_indep _ x00 (bxor (rd a 0) (rd p 0)))
    by now rewrite length_map, length_seq.
  rewrite (map_nth (fun j => bxor (rd a j) (rd p j)) (seq 0 16) 0 j).
  now rewrite seq_nth.
Qed.

Lemma xor16_involutive (a p : list byte) :
  length a = 16 -> xor16 (xor16 a p) p = a.
Proof.
  intros Ha. apply rd_ext.
  - now rewrite length_xor16.
  - intros i Hi. rewrite length_xor16 in Hi.
    rewrite !rd_xor16 by assumption. apply bxor_involutive.
Qed.

Lemma xor16_cancel_l (a p p' : list byte) :
  length p = 16 -> length p' = 16 -> xor16 a p = xor16 a p' -> p = p'.
Proof.
  intros Hp Hp' H. apply rd_ext; [congruence|].
  intros i Hi. rewrite Hp in Hi.
  apply (f_equal (fun l => rd l i)) in H.
  rewrite !rd_xor16 in H by assumption.
  now apply bxor_cancel_l in H.
Qed.

Lemma xor16_cancel_r (a a' p : list byte) :
  length a = 16 -> length a' = 16 -> xor16 a p = xor16 a' p -> a = a'.
Proof.
  intros Ha Ha' H. apply rd_ext; [congruence|].
  intros i Hi. rewrite Ha in Hi.
  apply (f_equal (fun l => rd l i)) in H.
  rewrite !rd_xor16 in H by assumption.
  now apply bxor_cancel_r in H.
Qed.

End Xor16.

Section Chunks.

Lemma app_inj_length (A : Type) (a a' b b' : list A) :
  length a = length a' -> a ++ b = a' ++ b' -> a = a' /\ b = b'.
Proof.
  revert a'; induction a as [|x a IH]; intros [|x' a'] Hl H;
    try discriminate Hl.
  - now split.
  - cbn in H. injection H as -> H. injection Hl as Hl.
    destruct (IH a' Hl H) as [-> ->]. now split.
Qed.

Lemma chunk_blocks (n : nat) (b : list byte) (rest : list byte) :
  length b = 16 ->
  map (fun k => slice (b ++ rest) (k * 16) 16) (seq 0 (S n))
  = b :: map (fun k => slice rest (k * 16) 16) (seq 0 n).
Proof.
  intros Hb. cbn [seq map]. f_equal.
  - change (0 * 16) with 0. rewrite <- Hb. apply slice_app_l.
  - rewrite <- seq_shift, map_map. apply map_ext. intros k.
    change (S k * 16) with (16 + k * 16). rewrite <- Hb.
    apply slice_app_r.
Qed.

Lemma concat_chunks_n (n : nat) :
  forall X, length X = n * 16 ->
       concat (map (fun k => slice X (k * 16) 16) (seq 0 n)) = X.
Proof.
  induction n as [|n IH]; intros X HX.
  - destruct X; [reflexivity|discriminate].
  - rewrite <- (firstn_skipn 16 X).
    assert (Hf : length (firstn 16 X) = 16) by (rewrite length_firstn; lia).
    rewrite chunk_blocks by assumption.
    cbn [concat]. f_equal. apply IH.
    rewrite length_skipn. lia.
Qed.

Lemma concat_chunks (X : list byte) :
  length X mod 16 = 0 -> concat (chunks X) = X.
Proof.
  intros H. apply concat_chunks_n.
  rewrite (Nat.div_mod_eq (length X) 16) at 1. lia.
Qed.

Lemma Forall_chunks (X : list byte) : Forall block16 (chunks X).
Proof.
  unfold chunks. apply Forall_map, Forall_forall. intros k _.
  apply length_slice.
Qed.

(** Cutting a concatenation of blocks gives the blocks back. *)
Lemma chunks_concat (cs : list (list byte)) :
  Forall block16 cs ->
  map (fun k => slice (concat cs) (k * 16) 16) (seq 0 (length cs)) = cs.
Proof.
  induction 1 as [|b cs Hb Hcs IH]; [reflexivity|].
  cbn [concat length]. rewrite chunk_blocks by assumption.
  now rewrite IH.
Qed.

Lemma length_concat16 (cs : list (list byte)) :
  Forall block16 cs -> length (concat cs) = length cs * 16.
Proof.
  induction 1 as [|b cs Hb Hcs IH]; [reflexivity|].
  cbn [concat length]. rewrite length_app, IH, Hb. lia.
Qed.

Lemma range_step_blocks (lo n : nat) :
  range_step lo (lo + n * 16) 16 = map (fun k => lo + k * 16) (seq 0 n).
Proof.
  unfold range_step. do 2 f_equal.
  replace (lo + n * 16 - lo + (16 - 1)) with (15 + n * 16) by lia.
  rewrite Nat.div_add by lia. reflexivity.
Qed.

End Chunks.

(** The chain of [encrypt] and of [decrypt] on blocks, for any pair of
    block transforms [E] and [D]. *)
Section Chain.
Variables E D : list byte -> list byte.

Fixpoint cbc_enc (prev : list byte) (blocks : list (list byte)) : list (list byte) :=
  match blocks with
  | [] => []
  | b :: bs => let c := E (xor16 b prev) in c :: cbc_enc c bs
  end.

Fixpoint cbc_dec (prev : list byte) (cs : list (list byte)) : list (list byte) :=
  match cs with
  | [] => []
  | c :: cs' => xor16 (D c) prev :: cbc_dec c cs'
  end.

Lemma length_cbc_enc (blocks : list (list byte)) :
  forall prev, length (cbc_enc prev blocks) = length blocks.
Proof. induction blocks as [|b bs IH]; intros prev; cbn; auto. Qed.

Lemma Forall_cbc_dec (cs : list (list byte)) :
  forall prev, Forall block16 (cbc_dec prev cs).
Proof.
  induction cs as [|c cs IH]; intros prev; cbn [cbc_dec]; constructor.
  - apply length_xor16.
  - apply IH.
Qed.

Hypothesis E_length : forall b, length (E b) = length b.
Hypothesis D_length : forall b, length (D b) = length b.
Hypothesis D_E : forall b, length b = 16 -> D (E b) = b.
Hypothesis E_D : forall b, length b = 16 -> E (D b) = b.

Lemma Forall_cbc_enc (blocks : list (list byte)) :
  forall prev, Forall block16 (cbc_enc prev blocks).
Proof.
  induction blocks as [|b bs IH]; intros prev; cbn [cbc_enc]; constructor.
  - unfold block16. rewrite E_length. apply length_xor16.
  - apply IH.
Qed.

Lemma cbc_dec_enc (blocks : list (list byte)) :
  Forall block16 blocks ->
  forall prev, cbc_dec prev (cbc_enc prev blocks) = blocks.
Proof.
  induction 1 as [|b bs Hb Hbs IH]; intros prev; [reflexivity|].
  cbn [cbc_enc cbc_dec].
  rewrite D_E by apply length_xor16.
  rewrite xor16_involutive by assumption.
  now rewrite IH.
Qed.

Lemma D_injective (b b' : list byte) :
  length b = 16 -> length b' = 16 -> D b = D b' -> b = b'.
Proof.
  intros Hb Hb' H. rewrite <- (E_D b Hb), H. now apply E_D.
Qed.

(** Changing one block of [prev :: cs] changes the chain's output. *)
Lemma cbc_dec_one_diff (L L' : list (list byte)) :
  one_diff L L' ->
  forall prev cs prev' cs',
    L = prev :: cs -> L' = prev' :: cs' -> cs <> [] ->
    Forall block16 L -> Forall block16 L' ->
    concat (cbc_dec prev cs) <> concat (cbc_dec prev' cs').
Proof.
  induction 1 as [b b' t Hne | b t t' Hd IH];
    intros prev cs prev' cs' HL HL' Hcs F F'.
  - injection HL as <- <-. injection HL' as <- <-.
    destruct t as [|c t]; [congruence|].
    cbn [cbc_dec concat]. intros H.
    apply app_inj_length in H; [|now rewrite !length_xor16].
    destruct H as [H _].
    apply Hne. inversion F; inversion F'; subst.
    eapply xor16_cancel_l; eassumption.
  - injection HL as <- <-. injection HL' as <- <-.
    inversion F as [|? ? _ Ft]; inversion F' as [|? ? _ Ft']; subst.
    inversion Hd as [c c' u Hne | c u u' Hd']; subst.
    + cbn [cbc_dec concat]. intros H.
      apply app_inj_length in H; [|now rewrite !length_xor16].
      destruct H as [H _].
      inversion Ft; inversion Ft'; subst.
      apply Hne. apply D_injective; try assumption.
      eapply xor16_cancel_r; [| |exact H]; now rewrite D_length.
    + cbn [cbc_dec concat]. intros H.
      apply app_inj_length in H; [|now rewrite !length_xor16].
      destruct H as [_ H]. revert H.
      apply (IH c u c u' eq_refl eq_refl); try assumption.
      inversion Hd'; discriminate.
Qed.

End Chain.

(** Overwriting one byte of a run of blocks with a different byte changes
    exactly one block. *)
Lemma wr_concat_one_diff (L : list (list byte)) :
  Forall block16 L ->
  forall i v,
    i < length (concat L) -> v <> rd (concat L) i ->
    exists L', wr (concat L) i v = concat L' /\ one_diff L L' /\ Forall block16 L'.
Proof.
  induction 1 as [|b L Hb HL IH]; intros i v Hi Hv; [cbn in Hi; lia|].
  cbn [concat] in *.
  destruct (Nat.lt_ge_cases i 16) as [Hlt|Hge].
  - exists (wr b i v :: L). rewrite wr_app_l by (rewrite Hb; exact Hlt).
    split; [reflexivity|]. split.
    + apply one_diff_here. intros Heq. apply Hv.
      rewrite rd_app_l by (rewrite Hb; exact Hlt).
      rewrite Heq. symmetry. apply rd_wr_same. rewrite Hb. exact Hlt.
    + constructor; [|assumption]. unfold block16. now rewrite length_wr.
  - rewrite length_app in Hi. unfold block16 in Hb.
    remember (i - 16) as j eqn:Hj.
    assert (Hij : i = length b + j) by lia. subst i.
    rewrite rd_app_r in Hv.
    destruct (IH j v ltac:(lia) Hv) as (L' & Hw & Hd & HF).
    exists (b :: L'). rewrite wr_app_r, Hw.
    split; [reflexivity|]. split; [now apply one_diff_later | now constructor].
Qed.

(* ================================================================== *)
(** ** [encrypt] and [decrypt] as chains of blocks *)
(* ================================================================== *)

Section Cipher.
Variable c : AESCipher.

Let E := AES256Impl.encryptBlock (ctx c).
Let D := AES256Impl.decryptBlock (ctx c).

Lemma encrypt_step_eq (padded : list byte) (k : nat) (res prev : list byte) :
  encrypt_step c padded (0 + k * 16) (res, prev)
  = (res ++ E (xor16 (slice padded (k * 16) 16) prev),
     E (xor16 (slice padded (k * 16) 16) prev)).
Proof.
  unfold encrypt_step. change (0 + k * 16) with (k * 16).
  replace (map (fun j => bxor (rd padded (k * 16 + j)) (rd prev j)) (seq 0 16))
    with (xor16 (slice padded (k * 16) 16) prev); [reflexivity|].
  unfold xor16. apply map_ext_in. intros j Hj. apply in_seq in Hj.
  now rewrite rd_slice by lia.
Qed.

Lemma encrypt_fold (padded : list byte) (ks : list nat) :
  forall res prev,
    fst (fold_left (fun s i => encrypt_step c padded i s)
                   (map (fun k => 0 + k * 16) ks) (res, prev))
    = res ++ concat (cbc_enc E prev (map (fun k => slice padded (k * 16) 16) ks)).
Proof.
  induction ks as [|k ks IH]; intros res prev.
  - cbn [map fold_left fst cbc_enc concat]. now rewrite app_nil_r.
  - rewrite !map_cons, fold_left_cons, encrypt_step_eq, IH.
    cbn [cbc_enc concat]. now rewrite app_assoc.
Qed.

(** The ciphertext is the IV followed by the chained blocks. *)
Lemma encrypt_outcome_blocks (iv plaintext : list byte) :
  encrypt_outcome c (Some iv) plaintext
  = Returned (iv ++ concat (cbc_enc E iv (chunks (pkcs7Pad plaintext)))).
Proof.
  unfold encrypt_outcome. f_equal.
  pose proof (length_pkcs7Pad_mod plaintext) as Hm.
  set (padded := pkcs7Pad plaintext) in *.
  assert (Hn : length padded = 0 + (length padded / 16) * 16).
  { rewrite (Nat.div_mod_eq (length padded) 16) at 1. lia. }
  unfold chunks. set (n := length padded / 16) in *.
  rewrite Hn, range_step_blocks. apply encrypt_fold.
Qed.

Lemma decrypt_step_eq (ciphertext : list byte) (i : nat) (res prev : list byte) :
  decrypt_step c ciphertext i (res, prev)
  = (res ++ xor16 (D (slice ciphertext i 16)) prev, slice ciphertext i 16).
Proof. reflexivity. Qed.

Lemma decrypt_fold (ciphertext : list byte) (ks : list nat) :
  forall res prev,
    fst (fold_left (fun s i => decrypt_step c ciphertext i s)
                   (map (fun k => 16 + k * 16) ks) (res, prev))
    = res ++ concat (cbc_dec D prev
                             (map (fun k => slice ciphertext (16 + k * 16) 16) ks)).
Proof.
  induction ks as [|k ks IH]; intros res prev.
  - cbn [map fold_left fst cbc_dec concat]. now rewrite app_nil_r.
  - rewrite !map_cons, fold_left_cons, decrypt_step_eq, IH.
    cbn [cbc_dec concat]. now rewrite app_assoc.
Qed.

Lemma slice_app_l16 (a b : list byte) : length a = 16 -> slice (a ++ b) 0 16 = a.
Proof. intros <-. apply slice_app_l. Qed.

(** [decrypt] on an IV followed by at least one block: the chain is
    undone and the padding removed. *)
Lemma decrypt_outcome_blocks (c0 : list byte) (cs : list (list byte)) :
  length c0 = 16 -> Forall block16 cs -> cs <> [] ->
  decrypt_outcome c (c0 ++ concat cs)
  = match pkcs7Unpad (concat (cbc_dec D c0 cs)) with
    | (false, _) => Failed InvalidPadding
    | (true, result) => Returned result
    end.
Proof.
  intros Hc0 Hcs Hne. unfold decrypt_outcome.
  assert (Hlen : length (c0 ++ concat cs) = 16 + length cs * 16).
  { now rewrite length_app, length_concat16, Hc0. }
  assert (Hpos : 1 <= length cs) by (destruct cs; [congruence | cbn; lia]).
  rewrite Hlen.
  replace (Nat.ltb (16 + length cs * 16) 32) with false
    by (symmetry; apply Nat.ltb_ge; lia).
  replace (16 + length cs * 16 - 16) with (length cs * 16) by lia.
  rewrite Nat.Div0.mod_mul. cbn [Nat.eqb negb orb].
  rewrite range_step_blocks, slice_app_l16, decrypt_fold by assumption.
  cbn [app].
  replace (map (fun k => slice (c0 ++ concat cs) (16 + k * 16) 16) (seq 0 (length cs)))
    with cs; [reflexivity|].
  rewrite <- (chunks_concat Hcs) at 1. apply map_ext. intros k.
  rewrite <- Hc0. symmetry. apply slice_app_r.
Qed.

Lemma chunks_nonempty (X : list byte) : 16 <= length X -> chunks X <> [].
Proof.
  intros H. unfold chunks.
  assert (1 <= length X / 16).
  { apply Nat.div_le_lower_bound; lia. }
  destruct (length X / 16); [lia|]. discriminate.
Qed.

Lemma cbc_enc_nonempty (prev : list byte) (blocks : list (list byte)) :
  blocks <> [] -> cbc_enc E prev blocks <> [].
Proof. destruct blocks; [congruence|discriminate]. Qed.

Lemma length_pkcs7Pad_ge (plaintext : list byte) : 16 <= length (pkcs7Pad plaintext).
Proof.
  pose proof (length_pkcs7Pad_mod plaintext) as Hm.
  pose proof (length_pkcs7Pad plaintext) as Hl.
  pose proof (padLen_range plaintext) as Hp.
  rewrite (Nat.div_mod_eq (length (pkcs7Pad plaintext)) 16), Hm.
  destruct (length (pkcs7Pad plaintext) / 16) eqn:Eq; [|lia].
  rewrite (Nat.div_mod_eq (length (pkcs7Pad plaintext)) 16), Hm, Eq in Hl. lia.
Qed.

(** The round trip, by the [return] taken. *)
Lemma decrypt_encrypt_outcome (iv plaintext : list byte) :
  length iv = 16 ->
  decrypt_outcome c (value_of (encrypt_outcome c (Some iv) plaintext))
  = Returned plaintext.
Proof.
  intros Hiv. rewrite encrypt_outcome_blocks. cbn [value_of].
  rewrite decrypt_outcome_blocks.
  - rewrite cbc_dec_enc.
    + rewrite concat_chunks by apply length_pkcs7Pad_mod.
      now rewrite pkcs7Unpad_pkcs7Pad.
    + intros b Hb. apply RoundFacts.decryptBlock_encryptBlock, Hb.
    + apply Forall_chunks.
  - exact Hiv.
  - apply Forall_cbc_enc. intros b. apply RoundFacts.length_encryptBlock.
  - apply cbc_enc_nonempty, chunks_nonempty, length_pkcs7Pad_ge.
Qed.

End Cipher.

(* ================================================================== *)
(** ** Key expansion *)
(* ================================================================== *)

Module KeyFacts.
Import AES256Impl.

(** Word [i] of the schedule: its four bytes from offset [4 i]. *)
Definition word (rk : list byte) (i : nat) : list byte := slice rk (i * 4) 4.

Definition xor_word (a b : list byte) : list byte :=
  map (fun j => bxor (rd a j) (rd b j)) (seq 0 4).

(** The transform of the previous word, in the words of the
    specification: rotate the bytes, substitute each through the S-box
    and xor the first with [rcon[i/8]] when [i mod 8 = 0]; substitute
    each byte when [i mod 8 = 4]; nothing otherwise. *)
Definition rot_word (w : list byte) : list byte :=
  [rd w 1; rd w 2; rd w 3; rd w 0].
Definition sub_word (w : list byte) : list byte := map sbox w.
Definition xor_first (w : list byte) (k : byte) : list byte :=
  match w with
  | [] => []
  | h :: t => bxor h k :: t
  end.
Definition spec_transform (i : nat) (w : list byte) : list byte :=
  if Nat.eqb (i mod 8) 0 then xor_first (sub_word (rot_word w)) (rd rcon (i / 8))
  else if Nat.eqb (i mod 8) 4 then sub_word w
  else w.

(** The value of [temp] after the branches of the loop body. *)
Definition temp_of (i : nat) (rk : list byte) : list byte :=
  let temp := slice rk ((i - 1) * 4) 4 in
  if Nat.eqb (i mod 8) 0 then
    let t := rd temp 0 in
    let temp := wr temp 0 (bxor (sbox (rd temp 1)) (rd rcon (i / 8))) in
    let temp := wr temp 1 (sbox (rd temp 2)) in
    let temp := wr temp 2 (sbox (rd temp 3)) in
    wr temp 3 (sbox t)
  else if Nat.eqb (i mod 8) 4 then
    for_range 0 4 (fun j temp => wr temp j (sbox (rd temp j))) temp
  else temp.

Lemma temp_of_spec (i : nat) (rk : list byte) :
  temp_of i rk = spec_transform i (word rk (i - 1)).
Proof.
  unfold temp_of, spec_transform, word.
  destruct (Nat.eqb (i mod 8) 0); [reflexivity|].
  destruct (Nat.eqb (i mod 8) 4); reflexivity.
Qed.

Lemma rd_wr_other (a : list byte) (k m : nat) (v : byte) :
  k <> m -> rd (wr a k v) m = rd a m.
Proof.
  revert k m; induction a as [|h t IH]; intros [|k] [|m] H; cbn;
    try reflexivity; try lia.
  apply IH. lia.
Qed.

Lemma keyExpansion_step_eq (i : nat) (rk : list byte) :
  keyExpansion_step 8 i rk =
  let temp := temp_of i rk in
  for_range 0 4
    (fun j rk' => wr rk' (i * 4 + j) (bxor (rd rk' ((i - 8) * 4 + j)) (rd temp j)))
    rk.
Proof. reflexivity. Qed.

Lemma length_keyExpansion_step (i : nat) (rk : list byte) :
  length (keyExpansion_step 8 i rk) = length rk.
Proof.
  rewrite keyExpansion_step_eq. cbv zeta. unfold for_range.
  cbn [seq Nat.sub fold_left]. now rewrite !length_wr.
Qed.

(** What iteration [i] leaves in each cell: the four cells of word [i]
    are written, the others are kept. *)
Lemma keyExpansion_step_rd (i m : nat) (rk : list byte) :
  length rk = 240 -> 8 <= i < 60 ->
  rd (keyExpansion_step 8 i rk) m =
  if Nat.leb (i * 4) m && Nat.ltb m (i * 4 + 4)
  then bxor (rd rk ((i - 8) * 4 + (m - i * 4))) (rd (temp_of i rk) (m - i * 4))
  else rd rk m.
Proof.
  intros Hl Hi. rewrite keyExpansion_step_eq. cbv zeta. unfold for_range.
  cbn [seq Nat.sub fold_left]. set (t := temp_of i rk).
  repeat rewrite (rd_wr_other _ (k := i * 4 + _) (m := (i - 8) * 4 + _)) by lia.
  destruct (Nat.leb (i * 4) m && Nat.ltb m (i * 4 + 4)) eqn:Em.
  - apply andb_true_iff in Em. destruct Em as [E1 E2].
    apply Nat.leb_le in E1. apply Nat.ltb_lt in E2.
    assert (Hm : m = i * 4 + 0 \/ m = i * 4 + 1 \/ m = i * 4 + 2 \/ m = i * 4 + 3)
      by lia.
    destruct Hm as [-> | [-> | [-> | ->]]];
      repeat rewrite rd_wr_other by lia;
      rewrite rd_wr_same by (rewrite ?length_wr; lia);
      repeat f_equal; lia.
  - apply andb_false_iff in Em.
    assert (Hm : m < i * 4 \/ i * 4 + 4 <= m).
    { destruct Em as [E|E]; [apply Nat.leb_gt in E | apply Nat.ltb_ge in E]; lia. }
    repeat rewrite rd_wr_other by lia. reflexivity.
Qed.

Lemma keyExpansion_step_old (i m : nat) (rk : list byte) :
  length rk = 240 -> 8 <= i < 60 -> m < i * 4 ->
  rd (keyExpansion_step 8 i rk) m = rd rk m.
Proof.
  intros Hl Hi Hm. rewrite keyExpansion_step_rd by assumption.
  replace (Nat.leb (i * 4) m) with false by (symmetry; apply Nat.leb_gt; lia).
  reflexivity.
Qed.

Lemma slice_ext (a b : list byte) (off n : nat) :
  (forall j, j < n -> rd a (off + j) = rd b (off + j)) ->
  slice a off n = slice b off n.
Proof.
  intros H. unfold slice. apply map_ext_in. intros j Hj.
  apply in_seq in Hj. apply H. lia.
Qed.

Section Schedule.
Variable key : list byte.

(** After the iterations below [n]: the key in words 0..7 and the
    recurrence at every word from 8 up to [n]. *)
Definition expanded_upto (n : nat) (rk : list byte) : Prop :=
  length rk = 240
  /\ (forall m, m < 32 -> rd rk m = rd key m)
  /\ (forall i j, 8 <= i < n -> j < 4 ->
             rd rk (i * 4 + j)
             = bxor (rd rk ((i - 8) * 4 + j))
                    (rd (spec_transform i (word rk (i - 1))) j)).

Lemma expanded_init : expanded_upto 8 (slice key 0 32 ++ repeat x00 208).
Proof.
  unfold expanded_upto. split; [|split].
  - now rewrite length_app, length_slice, repeat_length.
  - intros m Hm. rewrite rd_app_l by (rewrite length_slice; exact Hm).
    now rewrite rd_slice.
  - intros i j Hi. lia.
Qed.

Lemma expanded_step (n : nat) (rk : list byte) :
  8 <= n < 60 ->
  expanded_upto n rk -> expanded_upto (S n) (keyExpansion_step 8 n rk).
Proof.
  intros Hn (Hl & Hk & Hr).
  assert (Hw : forall i, 1 <= i <= n ->
                    word (keyExpansion_step 8 n rk) (i - 1) = word rk (i - 1)).
  { intros i Hi. apply slice_ext. intros j Hj.
    apply keyExpansion_step_old; try assumption. lia. }
  unfold expanded_upto. split; [|split].
  - now rewrite length_keyExpansion_step.
  - intros m Hm. rewrite keyExpansion_step_old by (assumption || lia).
    now apply Hk.
  - intros i j Hi Hj.
    rewrite Hw by lia.
    rewrite (keyExpansion_step_old (m := (i - 8) * 4 + j)) by (assumption || lia).
    destruct (Nat.eq_dec i n) as [->|Hne].
    + rewrite keyExpansion_step_rd by assumption.
      replace (Nat.leb (n * 4) (n * 4 + j)) with true
        by (symmetry; apply Nat.leb_le; lia).
      replace (Nat.ltb (n * 4 + j) (n * 4 + 4)) with true
        by (symmetry; apply Nat.ltb_lt; lia).
      cbn [andb]. replace (n * 4 + j - n * 4) with j by lia.
      now rewrite temp_of_spec.
    + rewrite keyExpansion_step_old by (assumption || lia).
      apply Hr; lia.
Qed.

Lemma expanded_loop (k : nat) :
  k <= 52 ->
  expanded_upto (8 + k)
    (fold_left (fun acc i => keyExpansion_step 8 i acc) (seq 8 k)
               (slice key 0 32 ++ repeat x00 208)).
Proof.
  induction k as [|k IH]; intros Hk.
  - apply expanded_init.
  - rewrite seq_S, fold_left_app, fold_left_cons.
    change (fold_left (fun acc i => keyExpansion_step 8 i acc) [] ?x) with x.
    rewrite Nat.add_succ_r. apply expanded_step; [lia|]. apply IH. lia.
Qed.

Lemma keyExpansion_expanded : expanded_upto 60 (roundKey (keyExpansion key)).
Proof. exact (expanded_loop (Nat.le_refl 52)). Qed.
End Schedule.

End KeyFacts.

(* ================================================================== *)
(** ** The hex codec *)
(* ================================================================== *)

Section Hex.
Local Open Scope string_scope.

(** What the stream receives for one byte. *)
Definition hex2 (b : byte) : string :=
  setw_setfill 2 "0" (hex_of_int (Byte.to_N b)).

Definition hexs (d : list byte) : string :=
  fold_right (fun b s => hex2 b ++ s) "" d.

Definition is_lower_hex (ch : ascii) : bool :=
  existsb (Ascii.eqb ch) (list_ascii_of_string "0123456789abcdef").

(** The byte [hexToBytes] makes of a two-character substring. *)
Definition byte_of_pair (s : string) : byte :=
  u8 (Z.to_N (strtol16 s mod 256)).

Definition hex2_ok (b : byte) : bool :=
  match hex2 b with
  | String h (String l EmptyString) =>
      is_lower_hex h && is_lower_hex l
      && Byte.eqb (byte_of_pair (String h (String l EmptyString))) b
  | _ => false
  end.

Lemma hex2_ok_all : forall b, hex2_ok b = true.
Proof. apply forall_byte. vm_compute. reflexivity. Qed.

Lemma hex2_shape (b : byte) :
  exists h l, hex2 b = String h (String l "")
              /\ is_lower_hex h = true /\ is_lower_hex l = true
              /\ byte_of_pair (String h (String l "")) = b.
Proof.
  pose proof (hex2_ok_all b) as H. unfold hex2_ok in H.
  destruct (hex2 b) as [|h [|l [|? ?]]]; try discriminate.
  apply andb_true_iff in H. destruct H as [H Hb].
  apply andb_true_iff in H. destruct H as [Hh Hl].
  exists h, l. repeat split; try assumption.
  now apply Byte.byte_dec_bl.
Qed.

Lemma append_assoc (a b c : string) : (a ++ b) ++ c = a ++ (b ++ c).
Proof. induction a as [|x a IH]; cbn; [reflexivity|now rewrite IH]. Qed.

Lemma append_nil_r (a : string) : a ++ "" = a.
Proof. induction a as [|x a IH]; cbn; [reflexivity|now rewrite IH]. Qed.

Lemma bytesToHex_fold (d : list byte) :
  forall pre acc,
    fold_left (fun ss i => ss ++ hex2 (rd (pre ++ d) i))
              (seq (length pre) (length d)) acc
    = acc ++ hexs d.
Proof.
  induction d as [|b d IH]; intros pre acc.
  - cbn. now rewrite append_nil_r.
  - cbn [length seq]. rewrite fold_left_cons.
    replace (rd (pre ++ b :: d) (length pre)) with b.
    2:{ rewrite <- (Nat.add_0_r (length pre)). now rewrite rd_app_r. }
    replace (pre ++ b :: d)%list with ((pre ++ [b]) ++ d)%list
      by now rewrite <- app_assoc.
    replace (S (length pre)) with (length (pre ++ [b])%list)
      by (rewrite length_app; cbn; lia).
    rewrite IH. cbn [hexs fold_right]. apply append_assoc.
Qed.

Lemma bytesToHex_hexs (d : list byte) : bytesToHex d (length d) = hexs d.
Proof.
  unfold bytesToHex, for_range. rewrite Nat.sub_0_r.
  exact (bytesToHex_fold d [] "").
Qed.

Lemma length_hexs (d : list byte) : String.length (hexs d) = 2 * length d.
Proof.
  induction d as [|b d IH]; [reflexivity|].
  cbn [hexs fold_right length]. fold (hexs d).
  destruct (hex2_shape b) as (h & l & -> & _).
  cbn [append String.length]. rewrite IH. lia.
Qed.

Lemma lower_hexs (d : list byte) :
  forallb is_lower_hex (list_ascii_of_string (hexs d)) = true.
Proof.
  induction d as [|b d IH]; [reflexivity|].
  cbn [hexs fold_right]. fold (hexs d).
  destruct (hex2_shape b) as (h & l & -> & Hh & Hl & _).
  cbn [append list_ascii_of_string forallb]. now rewrite Hh, Hl, IH.
Qed.

Lemma fold_left_snoc_map (A B : Type) (f : A -> B) (l : list A) :
  forall acc, fold_left (fun bs i => (bs ++ [f i])%list) l acc = (acc ++ map f l)%list.
Proof.
  induction l as [|x l IH]; intros acc; cbn [fold_left map].
  - now rewrite app_nil_r.
  - rewrite IH. now rewrite <- app_assoc.
Qed.

Lemma hexToBytes_map (hex : string) :
  hexToBytes hex
  = map (fun i => byte_of_pair (substring i 2 hex))
        (range_step 0 (String.length hex - 1) 2).
Proof.
  unfold hexToBytes.
  exact (fold_left_snoc_map (fun i => byte_of_pair (substring i 2 hex)) _ []).
Qed.

(** The indices visited for a string of [2 n] characters. *)
Lemma range_step_pairs (n : nat) :
  range_step 0 (2 * n - 1) 2 = map (fun k => k * 2) (seq 0 n).
Proof.
  unfold range_step. rewrite Nat.sub_0_r.
  replace ((2 * n - 1 + (2 - 1)) / 2) with n; [reflexivity|].
  destruct n as [|n]; [reflexivity|].
  replace (2 * S n - 1 + (2 - 1)) with (S n * 2) by lia.
  now rewrite Nat.div_mul.
Qed.

Lemma substring_0_0 (s : string) : substring 0 0 s = "".
Proof. destruct s; reflexivity. Qed.

Lemma pairs_of_hexs (d : list byte) :
  map (fun k => byte_of_pair (substring (k * 2) 2 (hexs d))) (seq 0 (length d)) = d.
Proof.
  induction d as [|b d IH]; [reflexivity|].
  cbn [hexs fold_right length seq map]. fold (hexs d).
  destruct (hex2_shape b) as (h & l & -> & _ & _ & Hb).
  cbn [append]. f_equal.
  - cbn [Nat.mul substring]. rewrite substring_0_0. exact Hb.
  - rewrite <- seq_shift, map_map. rewrite <- IH at 2.
    apply map_ext. intros k. cbn [Nat.mul Nat.add substring]. reflexivity.
Qed.

Lemma hexToBytes_hexs (d : list byte) : hexToBytes (hexs d) = d.
Proof.
  rewrite hexToBytes_map, length_hexs, range_step_pairs, map_map.
  apply pairs_of_hexs.
Qed.

End Hex.

(* ================================================================== *)
(** ** SHA-256: the padding loop always ends *)
(* ================================================================== *)

Section ShaPadding.
Import SHA256Impl.

(** How many zero bytes are still missing before the length is 56
    modulo 64. *)
Definition zeros_missing (msg : list byte) : nat :=
  let r := length msg mod 64 in if Nat.leb r 56 then 56 - r else 120 - r.

Lemma pad_zeros_done (fuel : nat) :
  forall msg, zeros_missing msg < fuel ->
         length (pad_zeros fuel msg) mod 64 = 56.
Proof.
  induction fuel as [|fuel IH]; intros msg Hf; [lia|].
  cbn [pad_zeros].
  destruct (Nat.eqb (length msg mod 64) 56) eqn:E.
  - now apply Nat.eqb_eq in E.
  - apply Nat.eqb_neq in E. apply IH.
    unfold zeros_missing in *. rewrite length_app. cbn [length].
    pose proof (Nat.mod_upper_bound (length msg) 64 ltac:(lia)) as Hr.
    rewrite Nat.Div0.add_mod. change (1 mod 64) with 1.
    set (r := length msg mod 64) in *.
    destruct (Nat.eq_dec r 63) as [->|Hne].
    + cbn in *. lia.
    + rewrite (Nat.mod_small (r + 1)) by lia.
      destruct (Nat.leb r 56) eqn:E1, (Nat.leb (r + 1) 56) eqn:E2;
        try apply Nat.leb_le in E1; try apply Nat.leb_gt in E1;
        try apply Nat.leb_le in E2; try apply Nat.leb_gt in E2; lia.
Qed.

(** Sixty-four rounds of the loop are enough for every message, and the
    padded message is a whole number of 64-byte blocks. *)
Lemma length_padded_message (data : list byte) :
  length (padded_message data) mod 64 = 0.
Proof.
  unfold padded_message. cbn [seq rev app fold_left].
  rewrite !length_app. cbn [length].
  set (msg := pad_zeros 64 (data ++ [x80])).
  assert (H : length msg mod 64 = 56).
  { apply pad_zeros_done. unfold zeros_missing.
    pose proof (Nat.mod_upper_bound (length (data ++ [x80])) 64 ltac:(lia)).
    destruct (Nat.leb _ 56) eqn:E; [lia|]. apply Nat.leb_gt in E. lia. }
  replace (length msg + 1 + 1 + 1 + 1 + 1 + 1 + 1 + 1) with (length msg + 8) by lia.
  rewrite Nat.Div0.add_mod, H. reflexivity.
Qed.
End ShaPadding.

(* ================================================================== *)
(** ** The properties of the specification *)
(* ================================================================== *)

(** [string toHex(const vector<unsigned char>& h)] of [SHA256Impl]. *)
Definition toHex (h : list byte) : string :=
  fold_left (fun ss b => (ss ++ setw_setfill 2 "0" (hex_of_int (Byte.to_N b)))%string)
            h ""%string.

(** The AES-256 example of FIPS-197, Appendix C.3: the cipher key
    [00 01 .. 1f], the plaintext [00 11 .. ff] and the ciphertext the
    standard prints for them.  The code holds none of the three. *)
Definition fips197_key : list byte :=
  [x00; x01; x02; x03; x04; x05; x06; x07; x08; x09; x0a; x0b; x0c; x0d; x0e; x0f; x10; x11; x12; x13; x14; x15; x16; x17; x18; x19; x1a; x1b; x1c; x1d; x1e; x1f].
Definition fips197_plaintext : list byte :=
  [x00; x11; x22; x33; x44; x55; x66; x77; x88; x99; xaa; xbb; xcc; xdd; xee; xff].
Definition fips197_ciphertext : list byte :=
  [x8e; xa2; xb7; xca; x51; x67; x45; xbf; xea; xfc; x49; x90; x4b; x49; x60; x89].

Definition zero_block : list byte := repeat x00 16.

(** What [encryptBlock] makes of the all-zero block under that key. *)
Definition zero_block_ciphertext : list byte :=
  [xf2; x90; x00; xb6; x2a; x49; x9f; xd0; xa9; xf3; x9a; x6a; xdd; x2e; x77; x80].

(** A cipher keyed with the password [pw], and the 32 bytes [encrypt]
    returns for the empty plaintext when the random source gives sixteen
    zero bytes. *)
Definition pw_cipher : AESCipher := setKey (bytes_of_string "pw").
Definition empty_ciphertext : list byte :=
  [x00; x00; x00; x00; x00; x00; x00; x00; x00; x00; x00; x00; x00; x00; x00; x00; x54; xaf; x7f; x66; xa8; xa3; x58; xe0; xf7; x0f; x81; x6a; x52; x1d; x7d; x39].

(** C1. For every plaintext [P] (the empty one included), every password
    [K] and every IV the random source delivers, [encrypt] succeeds and
    [decrypt] under the same key returns exactly [P], through its
    [return result]. *)
Theorem roundtrip_decrypt_encrypt (K P iv : list byte) :
  length iv = 16 ->
  let c := setKey K in
  encrypt_outcome c (Some iv) P = Returned (encrypt c (Some iv) P)
  /\ decrypt_outcome c (encrypt c (Some iv) P) = Returned P
  /\ decrypt c (encrypt c (Some iv) P) = P.
Proof.
  intros Hiv c.
  assert (H : decrypt_outcome c (encrypt c (Some iv) P) = Returned P)
    by (apply decrypt_encrypt_outcome; exact Hiv).
  split; [reflexivity|]. split; [exact H|].
  unfold decrypt. now rewrite H.
Qed.

Lemma roundtrip_decrypt_encrypt_witness :
  length zero_block = 16
  /\ decrypt pw_cipher (encrypt pw_cipher (Some zero_block) (bytes_of_string "abc"))
     = bytes_of_string "abc".
Proof.
  split; [reflexivity|].
  apply (roundtrip_decrypt_encrypt (bytes_of_string "pw") (bytes_of_string "abc")
                                   zero_block).
  reflexivity.
Defined.

(** C2, as stated, fails for [decrypt]: the 32 bytes [empty_ciphertext]
    decrypt successfully under [pw_cipher], and the result is the empty
    sequence; the result is empty although the operation did not fail. *)
Lemma empty_result_ambiguous :
  ~ (decrypt pw_cipher empty_ciphertext = []
     <-> exists f, decrypt_outcome pw_cipher empty_ciphertext = Failed f).
Proof.
  intros [H _].
  assert (E : decrypt_outcome pw_cipher empty_ciphertext = Returned [])
    by (vm_compute; reflexivity).
  destruct H as [f Hf].
  - unfold decrypt. now rewrite E.
  - rewrite E in Hf. discriminate Hf.
Qed.

Lemma length_encrypt (c : AESCipher) (iv P : list byte) :
  length iv = 16 -> 32 <= length (encrypt c (Some iv) P).
Proof.
  intros Hiv. unfold encrypt. rewrite encrypt_outcome_blocks. cbn [value_of].
  rewrite length_app, Hiv, length_concat16.
  - rewrite length_cbc_enc.
    pose proof (@chunks_nonempty (pkcs7Pad P) (length_pkcs7Pad_ge P)) as Hne.
    destruct (chunks (pkcs7Pad P)); [congruence|]. cbn [length]. lia.
  - apply Forall_cbc_enc. intros b. apply RoundFacts.length_encryptBlock.
Qed.

(** C2, amended.  Every failure of [encrypt] and of [decrypt] is reported
    by the empty sequence.  For [encrypt] the sentinel is unambiguous: it
    fails exactly when the random source does, and a successful call
    returns at least 32 bytes.  For [decrypt] a failure gives the empty
    sequence, its only failures are the length and the padding ones, and
    the successful decryption of an encrypted empty plaintext gives the
    empty sequence too. *)
Theorem empty_result_sentinel (c : AESCipher) (rnd : option (list byte))
        (P ct iv : list byte) :
  length iv = 16 ->
  (encrypt c rnd P = [] <-> encrypt_outcome c rnd P = Failed RandomGenerationFailure)
  /\ (encrypt_outcome c rnd P = Failed RandomGenerationFailure <-> rnd = None)
  /\ 32 <= length (encrypt c (Some iv) P)
  /\ (forall f, decrypt_outcome c ct = Failed f -> decrypt c ct = [])
  /\ (decrypt_outcome c ct = Failed InvalidCiphertextLength
      \/ decrypt_outcome c ct = Failed InvalidPadding
      \/ exists result, decrypt_outcome c ct = Returned result)
  /\ decrypt_outcome c (encrypt c (Some iv) []) = Returned [].
Proof.
  intros Hiv. repeat apply conj.
  - destruct rnd as [iv'|]; [|now cbn].
    intros H. exfalso. revert H. unfold encrypt.
    rewrite encrypt_outcome_blocks. cbn [value_of].
    pose proof (@chunks_nonempty (pkcs7Pad P) (length_pkcs7Pad_ge P)) as Hne.
    destruct (chunks (pkcs7Pad P)) as [|b bs]; [congruence|].
    cbn [cbc_enc concat]. intros H.
    apply app_eq_nil in H. destruct H as [_ H].
    apply app_eq_nil in H. destruct H as [H _].
    apply (f_equal (@List.length byte)) in H.
    rewrite RoundFacts.length_encryptBlock, length_xor16 in H. discriminate H.
  - intros H. unfold encrypt. now rewrite H.
  - destruct rnd; [discriminate|reflexivity].
  - intros ->. reflexivity.
  - now apply length_encrypt.
  - intros f H. unfold decrypt. now rewrite H.
  - unfold decrypt_outcome.
    destruct (_ || _); [now left|].
    destruct (pkcs7Unpad _) as [[|] r]; [right; right; now exists r | right; now left].
  - now apply decrypt_encrypt_outcome.
Qed.

Lemma empty_result_sentinel_witness :
  length zero_block = 16
  /\ decrypt_outcome pw_cipher (encrypt pw_cipher (Some zero_block) []) = Returned [].
Proof.
  split; [reflexivity|].
  apply (empty_result_sentinel pw_cipher None [] [] zero_block). reflexivity.
Defined.

(** C3. The digests of the empty message and of ["abc"] are the ones of
    FIPS 180-4, 32 bytes each. *)
Theorem sha256_test_vectors :
  length (SHA256Impl.hash []) = 32
  /\ toHex (SHA256Impl.hash [])
     = "e3b0c44298fc1c149afbf4c8996fb92427ae41e4649b934ca495991b7852b855"%string
  /\ length (SHA256Impl.hash (bytes_of_string "abc")) = 32
  /\ toHex (SHA256Impl.hash (bytes_of_string "abc"))
     = "ba7816bf8f01cfea414140de5dae2223b00361a396177a9cb410ff61f20015ad"%string.
Proof. repeat apply conj; vm_compute; reflexivity. Qed.

(** C4, as stated, fails: under the FIPS-197 key the all-zero block does
    not encrypt to the ciphertext block the standard publishes, and that
    block does not decrypt to the all-zero block. *)
Lemma zero_block_is_not_the_fips197_vector :
  let ctx := AES256Impl.keyExpansion fips197_key in
  AES256Impl.encryptBlock ctx zero_block <> fips197_ciphertext
  /\ AES256Impl.decryptBlock ctx fips197_ciphertext <> zero_block.
Proof. split; vm_compute; discriminate. Qed.

(** C4, amended.  Under the FIPS-197 key, [encryptBlock] maps the
    plaintext block of the standard's example to the ciphertext block it
    publishes, and [decryptBlock] maps that one back; the all-zero block
    encrypts to [f29000b6 2a499fd0 a9f39a6a dd2e7780], which decrypts to
    the all-zero block. *)
Theorem fips197_known_answer :
  let ctx := AES256Impl.keyExpansion fips197_key in
  AES256Impl.encryptBlock ctx fips197_plaintext = fips197_ciphertext
  /\ AES256Impl.decryptBlock ctx fips197_ciphertext = fips197_plaintext
  /\ AES256Impl.encryptBlock ctx zero_block = zero_block_ciphertext
  /\ AES256Impl.decryptBlock ctx zero_block_ciphertext = zero_block.
Proof. repeat apply conj; vm_compute; reflexivity. Qed.

Lemma one_diff_cons_inv (b : list byte) (t L' : list (list byte)) :
  one_diff (b :: t) L' ->
  exists b' t', L' = b' :: t' /\ length t' = length t.
Proof.
  intros H. remember (b :: t) as L eqn:HL. revert b t HL.
  induction H as [x x' u Hne | x u u' Hd IH]; intros b t HL;
    injection HL as -> ->.
  - now exists x', t.
  - exists b, u'. split; [reflexivity|].
    destruct t as [|y t]; [inversion Hd|].
    destruct (IH y t eq_refl) as (y' & t' & -> & Hl). cbn. now rewrite Hl.
Qed.

(** C5. Whatever the key, the plaintext and the IV, overwriting any one
    byte of the ciphertext with a different value makes [decrypt] either
    fail or return something other than the plaintext. *)
Theorem tamper_never_silent (c : AESCipher) (P iv : list byte) (i : nat) (v : byte) :
  length iv = 16 ->
  i < length (encrypt c (Some iv) P) ->
  v <> rd (encrypt c (Some iv) P) i ->
  wr (encrypt c (Some iv) P) i v <> encrypt c (Some iv) P
  /\ decrypt_outcome c (wr (encrypt c (Some iv) P) i v) <> Returned P.
Proof.
  intros Hiv Hi Hv. split.
  { intros H. apply Hv. rewrite <- H at 1. symmetry. now apply rd_wr_same. }
  revert Hi Hv. unfold encrypt. rewrite encrypt_outcome_blocks. cbn [value_of].
  set (E := AES256Impl.encryptBlock (ctx c)).
  set (D := AES256Impl.decryptBlock (ctx c)).
  set (cs := cbc_enc E iv (chunks (pkcs7Pad P))).
  assert (HE : forall b, length (E b) = length b)
    by (intros b; apply RoundFacts.length_encryptBlock).
  assert (HD : forall b, length (D b) = length b)
    by (intros b; apply RoundFacts.length_decryptBlock).
  assert (Hcs : Forall block16 cs) by (apply Forall_cbc_enc; exact HE).
  assert (Hne : cs <> []).
  { apply cbc_enc_nonempty, chunks_nonempty, length_pkcs7Pad_ge. }
  assert (HL : Forall block16 (iv :: cs)) by now constructor.
  change (iv ++ concat cs) with (concat (iv :: cs)).
  intros Hi Hv.
  destruct (wr_concat_one_diff HL Hi Hv) as (L' & -> & Hd & HL').
  destruct (one_diff_cons_inv Hd) as (iv' & cs' & -> & Hlen).
  inversion HL' as [|? ? Hiv' Hcs']; subst.
  assert (Hne' : cs' <> []).
  { destruct cs'; [|discriminate]. destruct cs; [congruence|discriminate Hlen]. }
  cbn [concat]. rewrite decrypt_outcome_blocks by assumption. fold D.
  destruct (pkcs7Unpad (concat (cbc_dec D iv' cs'))) as [[|] r] eqn:Eu;
    [|discriminate].
  intros H. injection H as ->.
  apply pkcs7Unpad_true in Eu.
  assert (Horig : concat (cbc_dec D iv cs) = pkcs7Pad P).
  { unfold cs. rewrite cbc_dec_enc.
    - apply concat_chunks, length_pkcs7Pad_mod.
    - intros b Hb. apply RoundFacts.decryptBlock_encryptBlock, Hb.
    - apply Forall_chunks. }
  assert (HED : forall b, length b = 16 -> E (D b) = b)
    by (intros b Hb; apply RoundFacts.encryptBlock_decryptBlock, Hb).
  apply (@cbc_dec_one_diff E D HD HED _ _ Hd iv cs iv' cs' eq_refl eq_refl
                           Hne HL HL').
  now rewrite Horig, Eu.
Qed.

Lemma tamper_never_silent_witness :
  length zero_block = 16
  /\ 31 < length (encrypt pw_cipher (Some zero_block) [])
  /\ xff <> rd (encrypt pw_cipher (Some zero_block) []) 31
  /\ decrypt_outcome pw_cipher (wr (encrypt pw_cipher (Some zero_block) []) 31 xff)
     <> Returned [].
Proof.
  assert (Hl : 31 < length (encrypt pw_cipher (Some zero_block) []))
    by (vm_compute; repeat constructor).
  assert (Hv : xff <> rd (encrypt pw_cipher (Some zero_block) []) 31)
    by (vm_compute; discriminate).
  repeat apply conj; try assumption; [reflexivity|].
  apply (@tamper_never_silent pw_cipher [] zero_block 31 xff); [reflexivity | | ];
    assumption.
Defined.

(** C6. [decrypt] rejects every input shorter than 32 bytes or whose
    length minus 16 is not a multiple of 16: it leaves through the length
    check, its first statement, for every cipher state and whatever the
    bytes are, and the caller receives the empty sequence. *)
Theorem decrypt_rejects_bad_length (c : AESCipher) (ciphertext : list byte) :
  length ciphertext < 32 \/ (length ciphertext - 16) mod 16 <> 0 ->
  decrypt_outcome c ciphertext = Failed InvalidCiphertextLength
  /\ decrypt c ciphertext = [].
Proof.
  intros H.
  assert (E : decrypt_outcome c ciphertext = Failed InvalidCiphertextLength).
  { unfold decrypt_outcome.
    destruct (Nat.ltb (length ciphertext) 32) eqn:E1; [reflexivity|].
    destruct (Nat.eqb ((length ciphertext - 16) mod 16) 0) eqn:E2; [|reflexivity].
    apply Nat.ltb_ge in E1. apply Nat.eqb_eq in E2. lia. }
  split; [exact E|]. unfold decrypt. now rewrite E.
Qed.

Lemma decrypt_rejects_bad_length_witness :
  (length (repeat x00 31) < 32 \/ (length (repeat x00 31) - 16) mod 16 <> 0)
  /\ decrypt_outcome pw_cipher (repeat x00 31) = Failed InvalidCiphertextLength
  /\ decrypt_outcome pw_cipher (repeat x00 16) = Failed InvalidCiphertextLength
  /\ decrypt_outcome pw_cipher (repeat x00 33) = Failed InvalidCiphertextLength.
Proof.
  split; [left; cbn; lia|].
  repeat apply conj.
  - apply (@decrypt_rejects_bad_length pw_cipher (repeat x00 31)). left. cbn. lia.
  - apply (@decrypt_rejects_bad_length pw_cipher (repeat x00 16)). left. cbn. lia.
  - apply (@decrypt_rejects_bad_length pw_cipher (repeat x00 33)). right. cbn. lia.
Defined.

(** C7. [pkcs7Pad] appends [16 - |data| mod 16] bytes, a count between 1
    and 16 (16 when the length is a multiple of 16), each byte holding
    that count; [pkcs7Unpad] of the result succeeds and leaves exactly
    [data]. *)
Theorem pkcs7_padding_law (data : list byte) :
  let n := 16 - length data mod 16 in
  1 <= n <= 16
  /\ pkcs7Pad data = data ++ repeat (u8 (N.of_nat n)) n
  /\ Byte.to_nat (u8 (N.of_nat n)) = n
  /\ length (pkcs7Pad data) = length data + n
  /\ pkcs7Unpad (pkcs7Pad data) = (true, data).
Proof.
  intros n. pose proof (padLen_range data) as Hn. fold (padLen data) in n.
  repeat apply conj; try apply Hn.
  - reflexivity.
  - apply to_nat_u8. subst n. lia.
  - apply length_pkcs7Pad.
  - apply pkcs7Unpad_pkcs7Pad.
Qed.

Lemma rd_xor_word (a b : list byte) (j : nat) :
  j < 4 -> rd (KeyFacts.xor_word a b) j = bxor (rd a j) (rd b j).
Proof.
  intros Hj. unfold KeyFacts.xor_word, rd at 1.
  rewrite (nth_indep _ x00 (bxor (rd a 0) (rd b 0)))
    by now rewrite length_map, length_seq.
  rewrite (map_nth (fun j => bxor (rd a j) (rd b j)) (seq 0 4) 0 j).
  now rewrite seq_nth.
Qed.

(** C8. From a 32-byte key, key expansion fills 240 bytes, that is 60
    words or 15 round keys, and sets 14 rounds; words 0 to 7 are the key,
    and every word from 8 to 59 is the word eight places before it xored
    with the transform of the word just before it that the specification
    describes. *)
Theorem keyExpansion_schedule (key : list byte) :
  length key = 32 ->
  let rk := AES256Impl.roundKey (AES256Impl.keyExpansion key) in
  length rk = 240
  /\ length rk = 60 * 4
  /\ length rk = 15 * 16
  /\ AES256Impl.Nr (AES256Impl.keyExpansion key) = 14
  /\ slice rk 0 32 = key
  /\ forall i, 8 <= i < 60 ->
          KeyFacts.word rk i
          = KeyFacts.xor_word (KeyFacts.word rk (i - 8))
                              (KeyFacts.spec_transform i (KeyFacts.word rk (i - 1))).
Proof.
  intros Hkey rk.
  destruct (KeyFacts.keyExpansion_expanded key) as (Hl & Hk & Hr).
  fold rk in Hl, Hk, Hr.
  repeat apply conj; try exact Hl; try reflexivity.
  - apply rd_ext.
    + now rewrite length_slice.
    + intros m Hm. rewrite length_slice in Hm.
      rewrite rd_slice by assumption. now apply Hk.
  - intros i Hi. apply rd_ext.
    + unfold KeyFacts.word, KeyFacts.xor_word.
      now rewrite length_slice, length_map, length_seq.
    + intros j Hj. unfold KeyFacts.word at 1 in Hj. rewrite length_slice in Hj.
      rewrite rd_xor_word by assumption.
      unfold KeyFacts.word at 1 2. rewrite !rd_slice by assumption.
      now apply Hr.
Qed.

Lemma keyExpansion_schedule_witness :
  length fips197_key = 32
  /\ slice (AES256Impl.roundKey (AES256Impl.keyExpansion fips197_key)) 0 32
     = fips197_key.
Proof.
  split; [reflexivity|].
  exact (proj1 (proj2 (proj2 (proj2 (proj2
           (@keyExpansion_schedule fips197_key eq_refl)))))).
Defined.

(** C9. [bytesToHex] writes two lowercase hex characters per byte, so the
    text is twice as long as the bytes, for the text-mode ciphertext in
    particular, and [hexToBytes] gives the bytes back. *)
Theorem hex_codec_roundtrip (c : AESCipher) (rnd : option (list byte)) (d : list byte) :
  String.length (bytesToHex d (length d)) = 2 * length d
  /\ forallb is_lower_hex (list_ascii_of_string (bytesToHex d (length d))) = true
  /\ String.length (encryptText c rnd d) = 2 * length (encrypt c rnd d)
  /\ hexToBytes (bytesToHex d (length d)) = d.
Proof.
  unfold encryptText. rewrite !bytesToHex_hexs.
  repeat apply conj.
  - apply length_hexs.
  - apply lower_hexs.
  - apply length_hexs.
  - apply hexToBytes_hexs.
Qed.

(** C10. Once the schedule is expanded from a 32-byte key, [encryptBlock]
    and [decryptBlock] are inverse to one another on 16-byte blocks, and
    both give 16-byte blocks. *)
Theorem block_cipher_inverse (key b : list byte) :
  length key = 32 -> length b = 16 ->
  let ctx := AES256Impl.keyExpansion key in
  AES256Impl.decryptBlock ctx (AES256Impl.encryptBlock ctx b) = b
  /\ AES256Impl.encryptBlock ctx (AES256Impl.decryptBlock ctx b) = b
  /\ length (AES256Impl.encryptBlock ctx b) = 16
  /\ length (AES256Impl.decryptBlock ctx b) = 16.
Proof.
  intros _ Hb ctx. repeat apply conj.
  - now apply RoundFacts.decryptBlock_encryptBlock.
  - now apply RoundFacts.encryptBlock_decryptBlock.
  - now rewrite RoundFacts.length_encryptBlock.
  - now rewrite RoundFacts.length_decryptBlock.
Qed.

Lemma block_cipher_inverse_witness :
  length fips197_key = 32 /\ length fips197_plaintext = 16
  /\ AES256Impl.decryptBlock (AES256Impl.keyExpansion fips197_key)
       (AES256Impl.encryptBlock (AES256Impl.keyExpansion fips197_key) fips197_plaintext)
     = fips197_plaintext.
Proof.
  split; [reflexivity|]. split; [reflexivity|].
  exact (proj1 (@block_cipher_inverse fips197_key fips197_plaintext eq_refl eq_refl)).
Defined.


(* ================================================================== *)
(** ** Further properties of the code *)
(* ================================================================== *)

(** *** Key set-up *)

Lemma length_word_bytes (x : N) : length (SHA256Impl.word_bytes x) = 4.
Proof. reflexivity. Qed.

Lemma length_hash (data : list byte) : length (SHA256Impl.hash data) = 32.
Proof.
  unfold SHA256Impl.hash. cbv zeta.
  rewrite !length_app, !length_word_bytes. reflexivity.
Qed.

(** X1. [setKey] keeps the SHA-256 digest of the password as the key, 32
    bytes whatever the password, and expands it into a schedule of 240
    bytes for 14 rounds whose first 32 bytes are the key. *)
Theorem setKey_derives_key (password : list byte) :
  key (setKey password) = SHA256Impl.hash password
  /\ length (key (setKey password)) = 32
  /\ length (AES256Impl.roundKey (ctx (setKey password))) = 240
  /\ AES256Impl.Nr (ctx (setKey password)) = 14
  /\ slice (AES256Impl.roundKey (ctx (setKey password))) 0 32 = key (setKey password).
Proof.
  assert (Hk : key (setKey password) = SHA256Impl.hash password).
  { cbn [setKey key]. rewrite <- (length_hash password). apply slice_all. }
  destruct (KeyFacts.keyExpansion_expanded (key (setKey password)))
    as (Hl & Hr & _).
  repeat apply conj.
  - exact Hk.
  - rewrite Hk. apply length_hash.
  - exact Hl.
  - reflexivity.
  - apply rd_ext.
    + rewrite length_slice, Hk. symmetry. apply length_hash.
    + intros m Hm. rewrite length_slice in Hm.
      rewrite rd_slice by assumption. now apply Hr.
Qed.

(** *** The padded message of SHA-256 *)

Lemma pad_zeros_eq (fuel : nat) :
  forall msg, zeros_missing msg < fuel ->
         SHA256Impl.pad_zeros fuel msg = msg ++ repeat x00 (zeros_missing msg).
Proof.
  induction fuel as [|fuel IH]; intros msg Hf; [lia|].
  cbn [SHA256Impl.pad_zeros].
  pose proof (Nat.mod_upper_bound (length msg) 64 ltac:(lia)) as Hr.
  destruct (Nat.eqb (length msg mod 64) 56) eqn:E.
  - apply Nat.eqb_eq in E. unfold zeros_missing. rewrite E. cbn.
    now rewrite app_nil_r.
  - apply Nat.eqb_neq in E.
    assert (Hz : zeros_missing msg = S (zeros_missing (msg ++ [x00]))).
    { unfold zeros_missing. rewrite length_app. cbn [length].
      rewrite Nat.Div0.add_mod. change (1 mod 64) with 1.
      set (r := length msg mod 64) in *.
      destruct (Nat.eq_dec r 63) as [->|Hne]; [reflexivity|].
      rewrite (Nat.mod_small (r + 1)) by lia.
      destruct (Nat.leb r 56) eqn:E1, (Nat.leb (r + 1) 56) eqn:E2;
        try apply Nat.leb_le in E1; try apply Nat.leb_gt in E1;
        try apply Nat.leb_le in E2; try apply Nat.leb_gt in E2; lia. }
    rewrite IH by lia. rewrite Hz. cbn [repeat].
    now rewrite <- app_assoc.
Qed.

Lemma zeros_missing_lt (msg : list byte) : zeros_missing msg < 64.
Proof.
  unfold zeros_missing.
  pose proof (Nat.mod_upper_bound (length msg) 64 ltac:(lia)).
  destruct (Nat.leb _ 56) eqn:E; [lia|]. apply Nat.leb_gt in E. lia.
Qed.

(** The bit length as [hash] appends it: eight bytes, most significant
    first. *)
Definition bitlen_bytes (len : nat) : list byte :=
  let bitlen := SHA256Impl.wrap64 (N.of_nat len * 8) in
  map (fun i => u8 (N.shiftr bitlen (N.of_nat i * 8))) [7; 6; 5; 4; 3; 2; 1; 0].

(** X2. The message [hash] compresses is the data, one byte [0x80], the
    fewest zero bytes (at most 63) that bring the length to 56 modulo 64,
    and the bit length in eight bytes; it is a whole number of 64-byte
    blocks. *)
Theorem sha256_padded_message (data : list byte) :
  let k := zeros_missing (data ++ [x80]) in
  SHA256Impl.padded_message data
  = data ++ [x80] ++ repeat x00 k ++ bitlen_bytes (length data)
  /\ k < 64
  /\ (length data + 1 + k) mod 64 = 56
  /\ length (SHA256Impl.padded_message data) mod 64 = 0.
Proof.
  intros k. repeat apply conj.
  - unfold SHA256Impl.padded_message. cbv zeta.
    rewrite pad_zeros_eq by apply zeros_missing_lt. fold k.
    cbn [seq rev app fold_left]. unfold bitlen_bytes. cbn [map].
    rewrite <- !app_assoc. reflexivity.
  - apply zeros_missing_lt.
  - pose proof (pad_zeros_done (fuel := 64) (data ++ [x80])
                               (zeros_missing_lt _)) as H.
    rewrite pad_zeros_eq in H by apply zeros_missing_lt.
    rewrite !length_app, repeat_length in H. exact H.
  - apply length_padded_message.
Qed.

(** *** Digests in hex *)

Lemma toHex_fold (h : list byte) :
  forall acc, fold_left (fun ss b => (ss ++ hex2 b)%string) h acc
         = (acc ++ hexs h)%string.
Proof.
  induction h as [|b h IH]; intros acc; cbn [fold_left hexs fold_right].
  - now rewrite append_nil_r.
  - rewrite IH. fold (hexs h). apply append_assoc.
Qed.

Lemma toHex_hexs (h : list byte) : toHex h = hexs h.
Proof. exact (toHex_fold h ""%string). Qed.

(** X3. [toHex] writes what [bytesToHex] writes; the digest of any data
    is 32 bytes, so its hex form is 64 lowercase hex characters, from
    which [hexToBytes] recovers the digest. *)
Theorem sha256_digest_hex (data : list byte) :
  length (SHA256Impl.hash data) = 32
  /\ toHex (SHA256Impl.hash data) = bytesToHex (SHA256Impl.hash data) 32
  /\ String.length (toHex (SHA256Impl.hash data)) = 64
  /\ forallb is_lower_hex (list_ascii_of_string (toHex (SHA256Impl.hash data))) = true
  /\ hexToBytes (toHex (SHA256Impl.hash data)) = SHA256Impl.hash data.
Proof.
  pose proof (length_hash data) as Hl.
  rewrite <- Hl at 2. rewrite bytesToHex_hexs, toHex_hexs.
  repeat apply conj.
  - exact Hl.
  - reflexivity.
  - now rewrite length_hexs, Hl.
  - apply lower_hexs.
  - apply hexToBytes_hexs.
Qed.

(** *** PKCS#7 *)

(** X4. [pkcs7Unpad] succeeds exactly on the sequences [pkcs7Pad]
    produces, and then leaves the sequence that was padded; when it fails
    it leaves its argument as it was. *)
Theorem pkcs7Unpad_exact (X P : list byte) :
  (pkcs7Unpad X = (true, P) <-> X = pkcs7Pad P)
  /\ (fst (pkcs7Unpad X) = false -> snd (pkcs7Unpad X) = X).
Proof.
  split; [split|].
  - apply pkcs7Unpad_true.
  - intros ->. apply pkcs7Unpad_pkcs7Pad.
  - unfold pkcs7Unpad.
    destruct (_ || _); [reflexivity|].
    destruct (_ || _); [reflexivity|].
    destruct (forallb _ _); [discriminate|reflexivity].
Qed.

Lemma length_pkcs7Pad_blocks (data : list byte) :
  length (pkcs7Pad data) = 16 * (length data / 16 + 1).
Proof.
  rewrite length_pkcs7Pad. unfold padLen.
  pose proof (Nat.mod_upper_bound (length data) 16 ltac:(lia)).
  rewrite (Nat.div_mod_eq (length data) 16) at 1. lia.
Qed.

Lemma pkcs7Pad_injective (d d' : list byte) : pkcs7Pad d = pkcs7Pad d' -> d = d'.
Proof.
  intros H. pose proof (pkcs7Unpad_pkcs7Pad d) as Hu.
  rewrite H, pkcs7Unpad_pkcs7Pad in Hu. now injection Hu.
Qed.

(** X5. Padding rounds the length up to the next multiple of 16 strictly
    above it, keeps the data as a prefix, and sends different data to
    different padded sequences. *)
Theorem pkcs7Pad_length_and_injective (d d' : list byte) :
  length (pkcs7Pad d) = 16 * (length d / 16 + 1)
  /\ length d < length (pkcs7Pad d) <= length d + 16
  /\ firstn (length d) (pkcs7Pad d) = d
  /\ (pkcs7Pad d = pkcs7Pad d' <-> d = d').
Proof.
  pose proof (padLen_range d) as Hp. pose proof (length_pkcs7Pad d) as Hl.
  repeat apply conj; try lia.
  - apply length_pkcs7Pad_blocks.
  - unfold pkcs7Pad. rewrite firstn_app, Nat.sub_diag, firstn_all. cbn [firstn].
    apply app_nil_r.
  - apply pkcs7Pad_injective.
  - now intros ->.
Qed.

(** *** The ciphertext *)

Lemma length_chunks (X : list byte) : length (chunks X) = length X / 16.
Proof. unfold chunks. now rewrite length_map, length_seq. Qed.

Lemma length_encrypt_exact (c : AESCipher) (iv P : list byte) :
  length (encrypt c (Some iv) P) = length iv + 16 * (length P / 16 + 1).
Proof.
  unfold encrypt. rewrite encrypt_outcome_blocks. cbn [value_of].
  rewrite length_app, length_concat16.
  - rewrite length_cbc_enc, length_chunks, length_pkcs7Pad_blocks.
    rewrite (Nat.mul_comm 16 (length P / 16 + 1)), Nat.div_mul by lia. lia.
  - apply Forall_cbc_enc. intros b. apply RoundFacts.length_encryptBlock.
Qed.

Lemma slice_encrypt_iv (c : AESCipher) (iv P : list byte) :
  slice (encrypt c (Some iv) P) 0 (length iv) = iv.
Proof.
  unfold encrypt. rewrite encrypt_outcome_blocks. cbn [value_of].
  apply slice_app_l.
Qed.

(** X6. A successful [encrypt] returns the IV followed by one block more
    than the plaintext has full blocks: [16 + 16 (|P| / 16 + 1)] bytes,
    the first sixteen being the IV. *)
Theorem encrypt_layout (c : AESCipher) (iv P : list byte) :
  length iv = 16 ->
  length (encrypt c (Some iv) P) = 16 + 16 * (length P / 16 + 1)
  /\ slice (encrypt c (Some iv) P) 0 16 = iv
  /\ (length (encrypt c (Some iv) P) - 16) mod 16 = 0.
Proof.
  intros Hiv. pose proof (length_encrypt_exact c iv P) as Hl.
  rewrite Hiv in Hl. repeat apply conj.
  - exact Hl.
  - pose proof (slice_encrypt_iv c iv P) as Hs. now rewrite Hiv in Hs.
  - rewrite Hl.
    replace (16 + 16 * (length P / 16 + 1) - 16) with ((length P / 16 + 1) * 16) by lia.
    apply Nat.Div0.mod_mul.
Qed.

Lemma encrypt_layout_witness :
  length zero_block = 16
  /\ length (encrypt pw_cipher (Some zero_block) (bytes_of_string "abc")) = 32.
Proof.
  split; [reflexivity|].
  exact (proj1 (@encrypt_layout pw_cipher zero_block (bytes_of_string "abc") eq_refl)).
Defined.

(** X7. For one key, [encrypt] never maps two different (IV, plaintext)
    pairs to the same ciphertext: equal ciphertexts come from equal IVs
    and equal plaintexts.  In particular two calls on the same plaintext
    that draw different IVs return different ciphertexts. *)
Theorem encrypt_injective (c : AESCipher) (iv iv' P P' : list byte) :
  length iv = 16 -> length iv' = 16 ->
  encrypt c (Some iv) P = encrypt c (Some iv') P' ->
  iv = iv' /\ P = P'.
Proof.
  intros Hiv Hiv' H.
  assert (Hi : iv = iv').
  { rewrite <- (slice_encrypt_iv c iv P), <- (slice_encrypt_iv c iv' P').
    now rewrite H, Hiv, Hiv'. }
  split; [exact Hi|].
  pose proof (@decrypt_encrypt_outcome c iv P Hiv) as H1.
  pose proof (@decrypt_encrypt_outcome c iv' P' Hiv') as H2.
  change (value_of (encrypt_outcome c (Some iv) P)) with (encrypt c (Some iv) P) in H1.
  change (value_of (encrypt_outcome c (Some iv') P')) with (encrypt c (Some iv') P') in H2.
  rewrite H, H2 in H1. now injection H1.
Qed.

Lemma encrypt_injective_witness :
  length zero_block = 16 /\ length zero_block = 16
  /\ encrypt pw_cipher (Some zero_block) [] = encrypt pw_cipher (Some zero_block) []
  /\ zero_block = zero_block /\ @nil byte = [].
Proof.
  split; [reflexivity|]. split; [reflexivity|]. split; [reflexivity|].
  exact (@encrypt_injective pw_cipher zero_block zero_block [] [] eq_refl eq_refl eq_refl).
Defined.

(** *** What [decrypt] accepts *)

Section ChainBack.
Variables E D : list byte -> list byte.
Hypothesis D_length : forall b, length (D b) = length b.
Hypothesis E_D : forall b, length b = 16 -> E (D b) = b.

Lemma cbc_enc_dec (cs : list (list byte)) :
  Forall block16 cs ->
  forall prev, cbc_enc E prev (cbc_dec D prev cs) = cs.
Proof.
  induction 1 as [|b cs Hb Hcs IH]; intros prev; [reflexivity|].
  cbn [cbc_enc cbc_dec].
  rewrite xor16_involutive by (rewrite D_length; exact Hb).
  rewrite E_D by exact Hb. now rewrite IH.
Qed.
End ChainBack.

Lemma chunks_of_concat (L : list (list byte)) :
  Forall block16 L -> chunks (concat L) = L.
Proof.
  intros HL. unfold chunks. rewrite length_concat16 by assumption.
  rewrite Nat.div_mul by lia. now apply chunks_concat.
Qed.

Lemma decrypt_outcome_guard (c : AESCipher) (ct P : list byte) :
  decrypt_outcome c ct = Returned P ->
  32 <= length ct /\ (length ct - 16) mod 16 = 0.
Proof.
  unfold decrypt_outcome.
  destruct (Nat.ltb (length ct) 32) eqn:E1; [discriminate|].
  destruct (Nat.eqb ((length ct - 16) mod 16) 0) eqn:E2; [|discriminate].
  intros _. apply Nat.ltb_ge in E1. apply Nat.eqb_eq in E2. now split.
Qed.

(** An accepted ciphertext is the encryption of what it decrypts to, under
    the IV it carries. *)
Lemma encrypt_decrypt_outcome (c : AESCipher) (ct P : list byte) :
  decrypt_outcome c ct = Returned P ->
  encrypt c (Some (slice ct 0 16)) P = ct.
Proof.
  intros H. destruct (decrypt_outcome_guard _ _ H) as [Hlen Hmod].
  set (c0 := firstn 16 ct). set (rest := skipn 16 ct).
  assert (Hc0 : length c0 = 16) by (unfold c0; rewrite length_firstn; lia).
  assert (Hrest : length rest = length ct - 16) by (unfold rest; apply length_skipn).
  assert (Hcs : Forall block16 (chunks rest)) by apply Forall_chunks.
  assert (Hne : chunks rest <> []) by (apply chunks_nonempty; lia).
  assert (Hct : ct = c0 ++ concat (chunks rest)).
  { rewrite concat_chunks by (rewrite Hrest; exact Hmod).
    symmetry. apply firstn_skipn. }
  rewrite Hct in H |- *. rewrite slice_app_l16 by exact Hc0.
  rewrite decrypt_outcome_blocks in H by assumption.
  destruct (pkcs7Unpad _) as [[|] r] eqn:Eu; [|discriminate].
  injection H as ->. apply pkcs7Unpad_true in Eu.
  unfold encrypt. rewrite encrypt_outcome_blocks. cbn [value_of].
  rewrite <- Eu, chunks_of_concat by apply Forall_cbc_dec.
  rewrite cbc_enc_dec; [reflexivity | | | assumption].
  - intros b. apply RoundFacts.length_decryptBlock.
  - intros b Hb. apply RoundFacts.encryptBlock_decryptBlock, Hb.
Qed.

(** X8. [decrypt] accepts nothing but what [encrypt] produces: a
    ciphertext that decrypts to [P] is the encryption of [P] under the IV
    in its first sixteen bytes, so it has [16 + 16 (|P| / 16 + 1)] bytes,
    and no other ciphertext with the same IV decrypts to [P]. *)
Theorem decrypt_accepts_encryptions (c : AESCipher) (ct ct' P : list byte) :
  decrypt_outcome c ct = Returned P ->
  encrypt c (Some (slice ct 0 16)) P = ct
  /\ length ct = 16 + 16 * (length P / 16 + 1)
  /\ (decrypt_outcome c ct' = Returned P -> slice ct' 0 16 = slice ct 0 16 -> ct' = ct).
Proof.
  intros H. pose proof (encrypt_decrypt_outcome _ _ H) as He.
  repeat apply conj.
  - exact He.
  - rewrite <- He at 1. rewrite length_encrypt_exact, length_slice. reflexivity.
  - intros H' Hiv. rewrite <- He, <- (encrypt_decrypt_outcome _ _ H'). now rewrite Hiv.
Qed.

Lemma decrypt_accepts_encryptions_witness :
  decrypt_outcome pw_cipher empty_ciphertext = Returned []
  /\ encrypt pw_cipher (Some (slice empty_ciphertext 0 16)) [] = empty_ciphertext.
Proof.
  assert (H : decrypt_outcome pw_cipher empty_ciphertext = Returned [])
    by (vm_compute; reflexivity).
  split; [exact H|].
  exact (proj1 (@decrypt_accepts_encryptions pw_cipher empty_ciphertext
                                             empty_ciphertext [] H)).
Defined.

(** *** Text mode *)

(** [string decryptText(const string& hexCipher)]; the text is kept as
    bytes, as in [encryptText]. *)
Definition decryptText (c : AESCipher) (hexCipher : string) : list byte :=
  let data := hexToBytes hexCipher in
  let dec := decrypt c data in
  match dec with
  | [] => []
  | _ :: _ => dec
  end.

(** X9. Text mode round trip: [decryptText] of the hex string
    [encryptText] returns gives the text back; for the empty text that is
    the empty string, which the menu reports as a failed decryption. *)
Theorem text_roundtrip (c : AESCipher) (iv text : list byte) :
  length iv = 16 ->
  decryptText c (encryptText c (Some iv) text) = text
  /\ String.length (encryptText c (Some iv) text) = 32 + 32 * (length text / 16 + 1).
Proof.
  intros Hiv. unfold decryptText, encryptText.
  rewrite bytesToHex_hexs, hexToBytes_hexs, length_hexs.
  split.
  - pose proof (@decrypt_encrypt_outcome c iv text Hiv) as H.
    change (value_of (encrypt_outcome c (Some iv) text))
      with (encrypt c (Some iv) text) in H.
    unfold decrypt. rewrite H. cbn [value_of]. now destruct text.
  - rewrite length_encrypt_exact, Hiv. lia.
Qed.

Lemma text_roundtrip_witness :
  length zero_block = 16
  /\ decryptText pw_cipher (encryptText pw_cipher (Some zero_block) (bytes_of_string "abc"))
     = bytes_of_string "abc".
Proof.
  split; [reflexivity|].
  exact (proj1 (@text_roundtrip pw_cipher zero_block (bytes_of_string "abc") eq_refl)).
Defined.

(** *** [hexToBytes] on arbitrary strings *)

Lemma length_range_step_pairs (n : nat) : length (range_step 0 (n - 1) 2) = n / 2.
Proof.
  unfold range_step. rewrite length_map, length_seq, Nat.sub_0_r.
  destruct n as [|n]; [reflexivity|].
  replace (S n - 1 + (2 - 1)) with (S n) by lia. reflexivity.
Qed.

(** X10. [hexToBytes] never fails and returns one byte per pair of
    characters, half the length of the string rounded down, whatever the
    characters are. *)
Theorem hexToBytes_length (hex : string) :
  length (hexToBytes hex) = String.length hex / 2.
Proof.
  rewrite hexToBytes_map, length_map. apply length_range_step_pairs.
Qed.

Lemma length_append (s t : string) :
  String.length (s ++ t) = String.length s + String.length t.
Proof. induction s as [|x s IH]; cbn; [reflexivity|now rewrite IH]. Qed.

Lemma substring_append_l (s t : string) :
  forall i n, i + n <= String.length s ->
         substring i n (s ++ t) = substring i n s.
Proof.
  induction s as [|x s IH]; intros i n H; cbn [String.length] in H.
  - assert (i = 0) by lia. assert (n = 0) by lia. subst. cbn.
    now rewrite substring_0_0.
  - destruct i as [|i].
    + destruct n as [|n]; [reflexivity|].
      cbn [append substring]. f_equal. apply (IH 0 n). lia.
    + cbn [append substring]. apply IH. lia.
Qed.

(** X11. A trailing unpaired character is ignored: a string of even
    length followed by one more character gives the bytes of the string
    without it. *)
Theorem hexToBytes_ignores_odd_tail (s : string) (ch : ascii) :
  Nat.even (String.length s) = true ->
  hexToBytes (s ++ String ch "") = hexToBytes s.
Proof.
  intros Hev. apply Nat.even_spec in Hev. destruct Hev as [n Hn].
  rewrite !hexToBytes_map, length_append. cbn [String.length].
  rewrite Hn. replace (2 * n + 1 - 1) with (2 * n) by lia.
  assert (Hr : range_step 0 (2 * n) 2 = map (fun k => k * 2) (seq 0 n)).
  { unfold range_step. rewrite Nat.sub_0_r.
    replace ((2 * n + (2 - 1)) / 2) with n; [reflexivity|].
    replace (2 * n + (2 - 1)) with (1 + n * 2) by lia.
    rewrite Nat.div_add by lia. reflexivity. }
  rewrite Hr, range_step_pairs, !map_map. apply map_ext_in.
  intros k Hk. apply in_seq in Hk. f_equal.
  apply substring_append_l. lia.
Qed.

Lemma hexToBytes_ignores_odd_tail_witness :
  Nat.even (String.length "00ff") = true
  /\ hexToBytes ("00ff" ++ String "a" "") = hexToBytes "00ff".
Proof.
  split; [reflexivity|].
  exact (@hexToBytes_ignores_odd_tail "00ff" "a" eq_refl).
Defined.

(* ================================================================== *)
(** ** File names ([class FileHelper] and the callers' output names) *)
(* ================================================================== *)

Section FileNames.
Local Open Scope string_scope.

(** [s.substr(pos)]: from [pos] to the end ([pos] is never beyond the end
    in the code). *)
Definition substr_from (s : string) (pos : nat) : string :=
  substring pos (String.length s - pos) s.

(** [static string addEncExtension(const string& f)] *)
Definition addEncExtension (f : string) : string := f ++ ".enc".

(** [static bool hasEncExtension(const string& f)] *)
Definition hasEncExtension (f : string) : bool :=
  Nat.ltb 4 (String.length f)
  && String.eqb (substr_from f (String.length f - 4)) ".enc".

(** [static string removeEncExtension(const string& f)] *)
Definition removeEncExtension (f : string) : string :=
  if Nat.ltb 4 (String.length f)
     && String.eqb (substr_from f (String.length f - 4)) ".enc"
  then substring 0 (String.length f - 4) f
  else f.

(** The output name [batchEncrypt] passes to [encryptFile]. *)
Definition batchEncrypt_output (f : string) : string := addEncExtension f.

(** [outF] of [batchDecrypt]. *)
Definition batchDecrypt_output (f : string) : string :=
  if hasEncExtension f then removeEncExtension f else "decrypted_" ++ f.

(** The output name of menu entry 2 when the user gives none. *)
Definition default_decrypt_output (inputFile : string) : string :=
  if hasEncExtension inputFile then removeEncExtension inputFile
  else "decrypted.txt".

Lemma substring_all (s : string) : substring 0 (String.length s) s = s.
Proof. induction s as [|x s IH]; cbn; [reflexivity|now rewrite IH]. Qed.

Lemma substring_append_r (s t : string) :
  substring (String.length s) (String.length t) (s ++ t) = t.
Proof. induction s as [|x s IH]; cbn; [apply substring_all|exact IH]. Qed.

Lemma substring_append_prefix (s t : string) :
  substring 0 (String.length s) (s ++ t) = s.
Proof.
  rewrite substring_append_l by lia. apply substring_all.
Qed.

Lemma substring_split (s : string) :
  forall n, n <= String.length s ->
       substring 0 n s ++ substring n (String.length s - n) s = s.
Proof.
  induction s as [|x s IH]; intros n Hn; cbn [String.length] in *.
  - assert (n = 0) by lia. subst. reflexivity.
  - destruct n as [|n].
    + cbn [substring append Nat.sub]. f_equal. apply substring_all.
    + cbn [substring append Nat.sub]. f_equal. apply IH. lia.
Qed.

Lemma length_substring (s : string) :
  forall i n, i + n <= String.length s -> String.length (substring i n s) = n.
Proof.
  induction s as [|x s IH]; intros i n H; cbn [String.length] in H.
  - assert (i = 0) by lia. assert (n = 0) by lia. subst. reflexivity.
  - destruct i as [|i].
    + destruct n as [|n]; [reflexivity|].
      cbn [substring String.length]. f_equal. apply (IH 0 n). lia.
    + cbn [substring]. apply IH. lia.
Qed.

Lemma hasEncExtension_add (f : string) :
  hasEncExtension (addEncExtension f) = negb (Nat.eqb (String.length f) 0).
Proof.
  unfold hasEncExtension, addEncExtension, substr_from.
  rewrite length_append. cbn [String.length].
  replace (String.length f + 4 - 4) with (String.length f) by lia.
  replace (String.length f + 4 - String.length f) with (String.length ".enc")
    by (cbn; lia).
  rewrite substring_append_r, String.eqb_refl, andb_true_r.
  destruct (String.length f) as [|n]; [reflexivity|].
  cbn [Nat.eqb negb]. apply Nat.ltb_lt. lia.
Qed.

Lemma hasEncExtension_true (f : string) :
  hasEncExtension f = true ->
  4 < String.length f
  /\ f = substring 0 (String.length f - 4) f ++ ".enc".
Proof.
  unfold hasEncExtension, substr_from. intros H.
  apply andb_true_iff in H. destruct H as [Hl He].
  apply Nat.ltb_lt in Hl. apply String.eqb_eq in He.
  split; [exact Hl|].
  rewrite <- He. symmetry. apply substring_split. lia.
Qed.

Lemma string_eqb_empty (f : string) :
  String.eqb f "" = Nat.eqb (String.length f) 0.
Proof. destruct f; reflexivity. Qed.

Lemma removeEncExtension_add (f : string) :
  removeEncExtension (addEncExtension f)
  = (if String.eqb f "" then ".enc" else f).
Proof.
  unfold removeEncExtension. fold (hasEncExtension (addEncExtension f)).
  rewrite hasEncExtension_add, <- string_eqb_empty.
  destruct (String.eqb f "") eqn:E; cbn [negb].
  - apply String.eqb_eq in E. now subst.
  - unfold addEncExtension. rewrite length_append. cbn [String.length].
    replace (String.length f + 4 - 4) with (String.length f) by lia.
    apply substring_append_prefix.
Qed.

Lemma removeEncExtension_cases (f : string) :
  if hasEncExtension f
  then addEncExtension (removeEncExtension f) = f
       /\ String.length (removeEncExtension f) = String.length f - 4
       /\ 1 <= String.length (removeEncExtension f)
  else removeEncExtension f = f.
Proof.
  destruct (hasEncExtension f) eqn:E.
  - destruct (hasEncExtension_true f E) as [Hl Hf].
    unfold removeEncExtension. fold (hasEncExtension f). rewrite E.
    assert (Hlen : String.length (substring 0 (String.length f - 4) f)
                   = String.length f - 4) by (apply length_substring; lia).
    repeat apply conj.
    + unfold addEncExtension. now rewrite <- Hf.
    + exact Hlen.
    + lia.
  - unfold removeEncExtension. fold (hasEncExtension f). now rewrite E.
Qed.

(** X12. Adding the extension and removing it again gives the name back,
    except for the empty name: [".enc"] alone does not count as having
    the extension and is left as it is. *)
Theorem enc_extension_add_remove (f : string) :
  hasEncExtension (addEncExtension f) = negb (String.eqb f "")
  /\ removeEncExtension (addEncExtension f)
     = (if String.eqb f "" then ".enc" else f).
Proof.
  split.
  - rewrite string_eqb_empty. apply hasEncExtension_add.
  - apply removeEncExtension_add.
Qed.

(** X13. A name that has the extension is more than four characters
    long, and removing the extension and adding it again gives the name
    back; a name that does not have it is left unchanged by
    [removeEncExtension]. *)
Theorem enc_extension_remove_add (f : string) :
  if hasEncExtension f
  then addEncExtension (removeEncExtension f) = f
       /\ String.length (removeEncExtension f) = String.length f - 4
       /\ 4 < String.length f
  else removeEncExtension f = f.
Proof.
  pose proof (removeEncExtension_cases f) as H.
  destruct (hasEncExtension f) eqn:E; [|exact H].
  destruct H as (H1 & H2 & H3). repeat apply conj; try assumption.
  now destruct (hasEncExtension_true f E).
Qed.

Lemma length_neq (s t : string) : String.length s <> String.length t -> s <> t.
Proof. intros H ->. now apply H. Qed.

(** X14. The batch operations never write over the file they read: the
    output name of [batchEncrypt] and the one of [batchDecrypt] differ
    from the input name, and decrypting in batch what was encrypted in
    batch restores the name of a file whose name is not empty.  The
    default output name of the single-file decryption is the input name
    exactly when the input is called [decrypted.txt]. *)
Theorem output_names (f : string) :
  batchEncrypt_output f <> f
  /\ batchDecrypt_output f <> f
  /\ batchDecrypt_output (batchEncrypt_output f)
     = (if String.eqb f "" then "decrypted_.enc" else f)
  /\ (default_decrypt_output f = f <-> f = "decrypted.txt").
Proof.
  pose proof (removeEncExtension_cases f) as Hr.
  pose proof (hasEncExtension_add f) as Ha1.
  rewrite <- string_eqb_empty in Ha1.
  pose proof (removeEncExtension_add f) as Ha2.
  repeat apply conj.
  - apply length_neq. unfold batchEncrypt_output, addEncExtension.
    rewrite length_append. cbn. lia.
  - apply length_neq. unfold batchDecrypt_output.
    destruct (hasEncExtension f) eqn:E; rewrite ?E in Hr.
    + destruct Hr as (_ & Hl & Hpos). lia.
    + rewrite length_append. cbn. lia.
  - unfold batchDecrypt_output, batchEncrypt_output. rewrite Ha1, Ha2.
    destruct (String.eqb f "") eqn:E; cbn [negb]; [|reflexivity].
    apply String.eqb_eq in E. now subst.
  - unfold default_decrypt_output.
    destruct (hasEncExtension f) eqn:E; rewrite ?E in Hr.
    + destruct Hr as (_ & Hl & Hpos). intros H. exfalso.
      apply (@length_neq (removeEncExtension f) f); [lia|exact H].
    + intros H. now symmetry.
  - unfold default_decrypt_output. destruct (hasEncExtension f) eqn:E.
    + intros ->. discriminate E.
    + now intros ->.
Qed.

End FileNames.

(* ================================================================== *)
(** ** The password strength indicator ([getPassword]) *)
(* ================================================================== *)

(** [isupper], [islower], [isdigit] and [isalpha] of the C library in the
    "C" locale, the only one the program runs in.  A character outside
    ASCII belongs to none of the classes; [getPassword] passes a plain
    [char], for which the C standard defines the call on ASCII only, and
    the properties below do not depend on what is done with the rest. *)
Definition isupper (ch : ascii) : bool :=
  let n := nat_of_ascii ch in Nat.leb 65 n && Nat.leb n 90.
Definition islower (ch : ascii) : bool :=
  let n := nat_of_ascii ch in Nat.leb 97 n && Nat.leb n 122.
Definition isdigit (ch : ascii) : bool :=
  let n := nat_of_ascii ch in Nat.leb 48 n && Nat.leb n 57.
Definition isalpha (ch : ascii) : bool := isupper ch || islower ch.

Record char_classes := { hasUpper : bool; hasLower : bool;
                         hasDigit : bool; hasSpecial : bool }.

(** The body of [for (char c : password)]. *)
Definition classify (fl : char_classes) (ch : ascii) : char_classes :=
  if isupper ch then {| hasUpper := true; hasLower := hasLower fl;
                        hasDigit := hasDigit fl; hasSpecial := hasSpecial fl |}
  else if islower ch then {| hasUpper := hasUpper fl; hasLower := true;
                             hasDigit := hasDigit fl; hasSpecial := hasSpecial fl |}
  else if isdigit ch then {| hasUpper := hasUpper fl; hasLower := hasLower fl;
                             hasDigit := true; hasSpecial := hasSpecial fl |}
  else {| hasUpper := hasUpper fl; hasLower := hasLower fl;
          hasDigit := hasDigit fl; hasSpecial := true |}.

Definition password_classes (password : string) : char_classes :=
  fold_left classify (list_ascii_of_string password)
            {| hasUpper := false; hasLower := false;
               hasDigit := false; hasSpecial := false |}.

(** [score] at the end of [getPassword]. *)
Definition password_score (password : string) : nat :=
  let score := 0 in
  let score := if Nat.leb 8 (String.length password) then score + 1 else score in
  let score := if Nat.leb 12 (String.length password) then score + 1 else score in
  let fl := password_classes password in
  let score := if hasUpper fl && hasLower fl then score + 1 else score in
  let score := if hasDigit fl then score + 1 else score in
  let score := if hasSpecial fl then score + 1 else score in
  score.

Inductive strength : Type := Weak | Medium | Strong.

Definition strength_of (score : nat) : strength :=
  if Nat.leb score 1 then Weak
  else if Nat.leb score 3 then Medium
  else Strong.

(** [string getPassword(const string& prompt)] on the line read: the
    string returned and the strength printed; the empty line is refused
    and nothing is rated. *)
Definition getPassword (line : string) : string * option strength :=
  match line with
  | EmptyString => (EmptyString, None)
  | _ => (line, Some (strength_of (password_score line)))
  end.

(** X15. The score is at most 5.  A password shorter than 8 characters
    is never rated strong, whatever it is made of, and one of 12
    characters or more is never rated weak. *)
Theorem password_strength_bounds (password : string) :
  password_score password <= 5
  /\ (8 <= String.length password
      \/ strength_of (password_score password) <> Strong)
  /\ (String.length password < 12
      \/ strength_of (password_score password) <> Weak).
Proof.
  unfold password_score, strength_of. cbv zeta.
  destruct (Nat.leb_spec 8 (String.length password)) as [E8|E8];
    destruct (Nat.leb_spec 12 (String.length password)) as [E12|E12];
    destruct (hasUpper _ && hasLower _), (hasDigit _), (hasSpecial _);
    cbn; repeat apply conj; try lia;
    try (left; lia); try (right; discriminate).
Qed.

Lemma lowercase_classes (l : list ascii) :
  forall fl, forallb islower l = true ->
        hasUpper fl = false -> hasDigit fl = false -> hasSpecial fl = false ->
        hasUpper (fold_left classify l fl) = false
        /\ hasDigit (fold_left classify l fl) = false
        /\ hasSpecial (fold_left classify l fl) = false.
Proof.
  induction l as [|x l IH]; intros fl Hx Hu Hd Hs; [now cbn|].
  cbn [forallb] in Hx. apply andb_true_iff in Hx. destruct Hx as [Hx Hl].
  assert (Hup : isupper x = false).
  { unfold islower, isupper in *. cbv zeta in *.
    apply andb_true_iff in Hx. destruct Hx as [H1 _].
    apply (proj1 (Nat.leb_le _ _)) in H1.
    apply andb_false_iff. right. apply Nat.leb_gt. lia. }
  cbn [fold_left]. unfold classify at 2 4 6. rewrite Hup, Hx.
  apply IH; assumption.
Qed.

(** X16. A password made of lowercase letters only is never rated
    strong, however long it is; it is returned as typed all the same. *)
Theorem lowercase_password_not_strong (line : string) :
  forallb islower (list_ascii_of_string line) = true ->
  fst (getPassword line) = line
  /\ snd (getPassword line) <> Some Strong.
Proof.
  intros Hl. split; [now destruct line|].
  destruct line as [|ch line]; [discriminate|].
  cbn [getPassword snd]. intros H. injection H as H. revert H.
  destruct (@lowercase_classes (list_ascii_of_string (String ch line))
              {| hasUpper := false; hasLower := false;
                 hasDigit := false; hasSpecial := false |}
              Hl eq_refl eq_refl eq_refl) as (Hu & Hd & Hs).
  unfold password_score, strength_of, password_classes. cbv zeta.
  rewrite Hu, Hd, Hs. cbn [andb].
  destruct (Nat.leb 8 _), (Nat.leb 12 _); cbn; discriminate.
Qed.

Lemma lowercase_password_not_strong_witness :
  forallb islower (list_ascii_of_string "correcthorsebatterystaple") = true
  /\ snd (getPassword "correcthorsebatterystaple") <> Some Strong.
Proof.
  split; [reflexivity|].
  exact (proj2 (@lowercase_password_not_strong "correcthorsebatterystaple" eq_refl)).
Defined.

(* ================================================================== *)
(** ** Files ([encryptFile], [decryptFile], [hashFile]) *)
(* ================================================================== *)

(** The file system as the code sees it: the bytes [ifstream] reads from
    a name ([None] when the file does not open) and whether [ofstream]
    opens the name for writing.  A file that was opened for writing holds
    what was written and can be read afterwards. *)
Record FileSystem := { file_content : string -> option (list byte);
                       can_create : string -> bool }.

Definition write_file (fs : FileSystem) (name : string) (data : list byte) : FileSystem :=
  {| file_content := fun g => if String.eqb g name then Some data
                              else file_content fs g;
     can_create := can_create fs |}.

(** [v.empty()] *)
Definition is_empty (v : list byte) : bool :=
  match v with
  | [] => true
  | _ :: _ => false
  end.

(** [bool encryptFile(const string& inputFile, const string& outputFile)]:
    the flag returned and the file system afterwards. *)
Definition encryptFile (c : AESCipher) (rnd : option (list byte)) (fs : FileSystem)
           (inputFile outputFile : string) : bool * FileSystem :=
  match file_content fs inputFile with
  | None => (false, fs)
  | Some data =>
      let enc := encrypt c rnd data in
      if is_empty enc then (false, fs)
      else if can_create fs outputFile then (true, write_file fs outputFile enc)
           else (false, fs)
  end.

(** [bool decryptFile(const string& inputFile, const string& outputFile)] *)
Definition decryptFile (c : AESCipher) (fs : FileSystem)
           (inputFile outputFile : string) : bool * FileSystem :=
  match file_content fs inputFile with
  | None => (false, fs)
  | Some data =>
      let dec := decrypt c data in
      if is_empty dec then (false, fs)
      else if can_create fs outputFile then (true, write_file fs outputFile dec)
           else (false, fs)
  end.


Lemma encrypt_nonempty (c : AESCipher) (iv data : list byte) :
  is_empty (encrypt c (Some iv) data) = false.
Proof.
  pose proof (length_encrypt_exact c iv data) as H.
  destruct (encrypt c (Some iv) data); [cbn in H; lia|reflexivity].
Qed.

Lemma file_content_write_same (fs : FileSystem) (name : string) (data : list byte) :
  file_content (write_file fs name data) name = Some data.
Proof. cbn. now rewrite String.eqb_refl. Qed.




(** A file system with one file, [in.txt], holding [data]; every name
    can be created. *)
Definition one_file_fs (data : list byte) : FileSystem :=
  {| file_content := fun g => if String.eqb g "in.txt" then Some data else None;
     can_create := fun _ => true |}.


(** X19. An empty file is encrypted into 32 bytes, but decrypting that
    file fails: [decryptFile] returns [false] and writes nothing, because
    it takes the empty result of [decrypt] for a failure. *)
Theorem empty_file_not_restored (c : AESCipher) (iv : list byte) (fs : FileSystem)
        (inputFile encFile outputFile : string) :
  length iv = 16 ->
  file_content fs inputFile = Some [] ->
  can_create fs encFile = true ->
  let r1 := encryptFile c (Some iv) fs inputFile encFile in
  let r2 := decryptFile c (snd r1) encFile outputFile in
  fst r1 = true
  /\ (exists enc, file_content (snd r1) encFile = Some enc /\ length enc = 32)
  /\ fst r2 = false
  /\ snd r2 = snd r1.
Proof.
  intros Hiv Hin Hc1 r1 r2.
  assert (E1 : r1 = (true, write_file fs encFile (encrypt c (Some iv) []))).
  { unfold r1, encryptFile. rewrite Hin. cbv zeta.
    now rewrite encrypt_nonempty, Hc1. }
  assert (Hd : decrypt c (encrypt c (Some iv) []) = []).
  { pose proof (@decrypt_encrypt_outcome c iv [] Hiv) as H.
    unfold decrypt, encrypt. now rewrite H. }
  assert (E2 : r2 = (false, snd r1)).
  { unfold r2, decryptFile. rewrite E1. cbn [snd].
    rewrite file_content_write_same. cbv zeta. now rewrite Hd. }
  rewrite E2, E1. cbn [fst snd]. repeat apply conj; try reflexivity.
  exists (encrypt c (Some iv) []). split; [apply file_content_write_same|].
  rewrite length_encrypt_exact, Hiv. reflexivity.
Qed.

Lemma empty_file_not_restored_witness :
  length zero_block = 16
  /\ file_content (one_file_fs []) "in.txt" = Some []
  /\ fst (decryptFile pw_cipher
            (snd (encryptFile pw_cipher (Some zero_block) (one_file_fs [])
                    "in.txt" "in.txt.enc"))
            "in.txt.enc" "out.txt") = false.
Proof.
  split; [reflexivity|]. split; [reflexivity|].
  exact (proj1 (proj2 (proj2
    (@empty_file_not_restored pw_cipher zero_block (one_file_fs [])
       "in.txt" "in.txt.enc" "out.txt" eq_refl eq_refl eq_refl)))).
Defined.


(* ================================================================== *)
(** ** The arithmetic of [gmul] and the S-box tables *)
(* ================================================================== *)

Module FieldFacts.
Import AES256Impl AESFacts.

Lemma gmul_comm : forall a b, gmul a b = gmul b a.
Proof. by_bytes2. Qed.

Lemma gmul_linear_r (a b b' : byte) :
  gmul a (bxor b b') = bxor (gmul a b) (gmul a b').
Proof. rewrite !(gmul_comm a). apply gmul_linear. Qed.

Lemma gmul_0_l : forall b, gmul x00 b = x00.
Proof. by_bytes1. Qed.

Lemma gmul_1_r : forall a, gmul a x01 = a.
Proof. by_bytes1. Qed.

Lemma gmul_2_r : forall a, gmul a x02 = xtime a.
Proof. by_bytes1. Qed.

(** The part of [a] on the bit of [e]: [e] when [a] has that bit, zero
    otherwise. *)
Definition pick (a e : byte) : byte :=
  if N.eqb (N.land (Byte.to_N a) (Byte.to_N e)) 0 then x00 else e.

Definition bits_of (a : byte) : list byte :=
  map (pick a) [x01; x02; x04; x08; x10; x20; x40; x80].

Lemma byte_decompose : forall a, fold_right bxor x00 (bits_of a) = a.
Proof. by_bytes1. Qed.

Lemma linear_zero (h : byte -> byte) :
  (forall x y, h (bxor x y) = bxor (h x) (h y)) -> h x00 = x00.
Proof.
  intros Hh. pose proof (Hh x00 x00) as H.
  rewrite bxor_0_l, bxor_nilpotent in H. exact H.
Qed.

Section Linear.
Variables f g : byte -> byte.
Hypothesis f_linear : forall x y, f (bxor x y) = bxor (f x) (f y).
Hypothesis g_linear : forall x y, g (bxor x y) = bxor (g x) (g y).
Hypothesis agree : Forall (fun e => f e = g e) [x01; x02; x04; x08; x10; x20; x40; x80].

(** Two maps that respect xor and agree on the eight single-bit bytes
    agree on every byte. *)
Lemma linear_ext (a : byte) : f a = g a.
Proof.
  rewrite <- (byte_decompose a). unfold bits_of.
  assert (Hp : forall e, f e = g e -> f (pick a e) = g (pick a e)).
  { intros e He. unfold pick. destruct (N.eqb _ 0); [|exact He].
    now rewrite (@linear_zero f f_linear), (@linear_zero g g_linear). }
  cbn [map fold_right]. rewrite !f_linear, !g_linear.
  repeat match goal with
         | H : Forall _ (_ :: _) |- _ => inversion H; subst; clear H
         end.
  rewrite (@linear_zero f f_linear), (@linear_zero g g_linear).
  rewrite !Hp by assumption. reflexivity.
Qed.
End Linear.

Definition basis : list byte := [x01; x02; x04; x08; x10; x20; x40; x80].

Definition assoc_on_basis (c : byte) : bool :=
  forallb (fun e =>
             forallb (fun e' => Byte.eqb (gmul (gmul e e') c) (gmul e (gmul e' c)))
                     basis)
          basis.

Lemma assoc_on_basis_all : forall c, assoc_on_basis c = true.
Proof. apply forall_byte. vm_compute. reflexivity. Qed.

Lemma gmul_assoc (a b c : byte) : gmul (gmul a b) c = gmul a (gmul b c).
Proof.
  pose proof (assoc_on_basis_all c) as Hc. unfold assoc_on_basis in Hc.
  rewrite forallb_forall in Hc.
  revert a.
  apply (@linear_ext (fun a => gmul (gmul a b) c) (fun a => gmul a (gmul b c))).
  - intros x y. now rewrite !gmul_linear.
  - intros x y. now rewrite gmul_linear.
  - apply Forall_forall. intros e He. revert b.
    apply (@linear_ext (fun b => gmul (gmul e b) c) (fun b => gmul e (gmul b c))).
    + intros x y. now rewrite gmul_linear_r, gmul_linear.
    + intros x y. now rewrite gmul_linear, gmul_linear_r.
    + apply Forall_forall. intros e' He'.
      specialize (Hc e He). rewrite forallb_forall in Hc.
      apply Byte.byte_dec_bl. now apply Hc.
Qed.

Definition has_inverse (a : byte) : bool :=
  Byte.eqb a x00 || existsb (fun b => Byte.eqb (gmul a b) x01) all_bytes.

Lemma has_inverse_all : forall a, has_inverse a = true.
Proof. apply forall_byte. vm_compute. reflexivity. Qed.

(** X21. [gmul] is the multiplication of a field whose addition is xor:
    it is commutative and associative, distributes over xor, has [1] as
    unit, and every byte but zero has an inverse; multiplying by [2] is
    [xtime]. *)
Theorem gmul_field (a b c : byte) :
  gmul a b = gmul b a
  /\ gmul (gmul a b) c = gmul a (gmul b c)
  /\ gmul a (bxor b c) = bxor (gmul a b) (gmul a c)
  /\ gmul a x01 = a
  /\ gmul a x00 = x00
  /\ gmul a x02 = xtime a
  /\ (a = x00 \/ exists a', gmul a a' = x01).
Proof.
  repeat apply conj.
  - apply gmul_comm.
  - apply gmul_assoc.
  - apply gmul_linear_r.
  - apply gmul_1_r.
  - rewrite gmul_comm. apply gmul_0_l.
  - apply gmul_2_r.
  - pose proof (has_inverse_all a) as H. unfold has_inverse in H.
    apply orb_true_iff in H. destruct H as [H|H].
    + left. now apply Byte.byte_dec_bl.
    + right. apply existsb_exists in H. destruct H as (a' & _ & H).
      exists a'. now apply Byte.byte_dec_bl.
Qed.

(** The affine map of FIPS-197, section 5.1.1, on a byte: each bit is the
    xor of five bits of the argument, then [0x63] is added. *)
Definition rotl8 (x : N) (n : N) : N :=
  N.lor (N.shiftl x n mod 256) (N.shiftr x (8 - n)).
Definition affine (y : byte) : byte :=
  let v := Byte.to_N y in
  u8 (N.lxor (N.lxor (N.lxor (N.lxor (N.lxor v (rotl8 v 1)) (rotl8 v 2))
                             (rotl8 v 3)) (rotl8 v 4)) 0x63).

Definition sbox_entry_ok (a y : byte) : bool :=
  if Byte.eqb (gmul a y) x01 then Byte.eqb (sbox a) (affine y) else true.

Lemma sbox_entry_ok_all : forall a y, sbox_entry_ok a y = true.
Proof. apply forall_byte2. vm_compute. reflexivity. Qed.

Definition no_fixed_point (b : byte) : bool :=
  negb (Byte.eqb (sbox b) b) && negb (Byte.eqb (sbox b) (bxor b xff)).

Lemma no_fixed_point_all : forall b, no_fixed_point b = true.
Proof. apply forall_byte. vm_compute. reflexivity. Qed.

(** X22. The two tables are permutations of the bytes, inverse to one
    another, and the S-box has no fixed point and sends no byte to its
    complement. *)
Theorem sbox_tables_inverse (b b' : byte) :
  rsbox (sbox b) = b
  /\ sbox (rsbox b) = b
  /\ (sbox b = sbox b' <-> b = b')
  /\ sbox b <> b
  /\ sbox b <> bxor b xff.
Proof.
  pose proof (no_fixed_point_all b) as H. unfold no_fixed_point in H.
  apply andb_true_iff in H. destruct H as [H1 H2].
  apply negb_true_iff in H1. apply negb_true_iff in H2.
  repeat apply conj.
  - apply rsbox_sbox.
  - apply sbox_rsbox.
  - intros H. rewrite <- (rsbox_sbox b), H. apply rsbox_sbox.
  - now intros ->.
  - intros E. rewrite E in H1.
    now rewrite (Byte.byte_dec_lb (eq_refl b)) in H1.
  - intros E. rewrite E in H2.
    now rewrite (Byte.byte_dec_lb (eq_refl (bxor b xff))) in H2.
Qed.

(** X23. Every entry of the S-box table is the value FIPS-197 defines:
    the affine map applied to the inverse of the index in the field of
    [gmul], and to zero for the index zero. *)
Theorem sbox_is_affine_of_inverse (a y : byte) :
  gmul a y = x01 ->
  sbox a = affine y /\ sbox x00 = affine x00.
Proof.
  intros H. split; [|reflexivity].
  pose proof (sbox_entry_ok_all a y) as Hok. unfold sbox_entry_ok in Hok.
  rewrite H in Hok. now apply Byte.byte_dec_bl.
Qed.

Lemma sbox_is_affine_of_inverse_witness :
  gmul x53 xca = x01 /\ sbox x53 = affine xca.
Proof.
  split; [reflexivity|].
  exact (proj1 (@sbox_is_affine_of_inverse x53 xca eq_refl)).
Defined.

End FieldFacts.

(* ================================================================== *)
(** ** The round transforms, one against the other *)
(* ================================================================== *)

Lemma subBytes_shiftRows_commute (s : list byte) :
  length s = 16 ->
  AES256Impl.subBytes (AES256Impl.shiftRows s)
  = AES256Impl.shiftRows (AES256Impl.subBytes s).
Proof. intros Hs. explode s Hs. reflexivity. Qed.

Lemma shiftRows_four_times (s : list byte) :
  length s = 16 ->
  AES256Impl.shiftRows (AES256Impl.shiftRows
    (AES256Impl.shiftRows (AES256Impl.shiftRows s))) = s.
Proof. intros Hs. explode s Hs. reflexivity. Qed.

(** X24. On a 16-byte state each transform of the cipher is undone by its
    counterpart ([addRoundKey] by itself), every one of them gives a
    16-byte state, [subBytes] and [shiftRows] can be done in either
    order, and four [shiftRows] in a row change nothing. *)
Theorem round_transforms (ctx : AES256Impl.Context) (s : list byte) (round : nat) :
  length s = 16 ->
  AES256Impl.invSubBytes (AES256Impl.subBytes s) = s
  /\ AES256Impl.subBytes (AES256Impl.invSubBytes s) = s
  /\ AES256Impl.invShiftRows (AES256Impl.shiftRows s) = s
  /\ AES256Impl.shiftRows (AES256Impl.invShiftRows s) = s
  /\ AES256Impl.invMixColumns (AES256Impl.mixColumns s) = s
  /\ AES256Impl.mixColumns (AES256Impl.invMixColumns s) = s
  /\ AES256Impl.addRoundKey ctx (AES256Impl.addRoundKey ctx s round) round = s
  /\ length (AES256Impl.mixColumns s) = 16
  /\ length (AES256Impl.addRoundKey ctx s round) = 16
  /\ AES256Impl.subBytes (AES256Impl.shiftRows s)
     = AES256Impl.shiftRows (AES256Impl.subBytes s)
  /\ AES256Impl.shiftRows (AES256Impl.shiftRows
       (AES256Impl.shiftRows (AES256Impl.shiftRows s))) = s.
Proof.
  intros Hs. repeat apply conj.
  - now apply RoundFacts.invSubBytes_subBytes.
  - now apply RoundFacts.subBytes_invSubBytes.
  - now apply RoundFacts.invShiftRows_shiftRows.
  - now apply RoundFacts.shiftRows_invShiftRows.
  - now apply RoundFacts.invMixColumns_mixColumns.
  - now apply RoundFacts.mixColumns_invMixColumns.
  - now apply RoundFacts.addRoundKey_involutive.
  - now apply RoundFacts.length_mixColumns.
  - now apply RoundFacts.length_addRoundKey.
  - now apply subBytes_shiftRows_commute.
  - now apply shiftRows_four_times.
Qed.

Lemma round_transforms_witness :
  length zero_block = 16
  /\ AES256Impl.invMixColumns (AES256Impl.mixColumns zero_block) = zero_block.
Proof.
  split; [reflexivity|].
  exact (proj1 (proj2 (proj2 (proj2 (proj2
    (@round_transforms (AES256Impl.keyExpansion fips197_key) zero_block 0
                       eq_refl)))))).
Defined.

(* ================================================================== *)
(** ** Hex strings read and written back *)
(* ================================================================== *)

Section HexBack.
Local Open Scope string_scope.

Lemma is_lower_hex_In (ch : ascii) :
  is_lower_hex ch = true -> In ch (list_ascii_of_string "0123456789abcdef").
Proof.
  unfold is_lower_hex. intros H. apply existsb_exists in H.
  destruct H as (x & Hx & E). apply Ascii.eqb_eq in E. now subst.
Qed.

Lemma hex2_of_pair (h l : ascii) :
  is_lower_hex h = true -> is_lower_hex l = true ->
  hex2 (byte_of_pair (String h (String l ""))) = String h (String l "").
Proof.
  intros Hh Hl. apply is_lower_hex_In in Hh. apply is_lower_hex_In in Hl.
  cbn [list_ascii_of_string In] in Hh, Hl.
  repeat (destruct Hh as [<-|Hh]); try contradiction;
    repeat (destruct Hl as [<-|Hl]); try contradiction;
    vm_compute; reflexivity.
Qed.

Lemma hexs_of_pairs (n : nat) :
  forall s, String.length s = 2 * n ->
       forallb is_lower_hex (list_ascii_of_string s) = true ->
       hexs (map (fun k => byte_of_pair (substring (k * 2) 2 s)) (seq 0 n)) = s.
Proof.
  induction n as [|n IH]; intros s Hlen Hs.
  - destruct s; [reflexivity|discriminate].
  - destruct s as [|h [|l rest]]; try (cbn in Hlen; lia).
    cbn [list_ascii_of_string forallb] in Hs.
    apply andb_true_iff in Hs. destruct Hs as [Hh Hs].
    apply andb_true_iff in Hs. destruct Hs as [Hl Hs].
    cbn [seq map hexs fold_right]. change (0 * 2) with 0.
    replace (substring 0 2 (String h (String l rest))) with (String h (String l ""))
      by (cbn [substring]; now rewrite substring_0_0).
    rewrite hex2_of_pair by assumption.
    cbn [append]. do 2 f_equal.
    assert (Hr : String.length rest = 2 * n) by (cbn in Hlen; lia).
    transitivity (hexs (map (fun k => byte_of_pair (substring (k * 2) 2 rest))
                            (seq 0 n)));
      [|exact (IH rest Hr Hs)].
    rewrite <- seq_shift, map_map.
    apply (f_equal hexs). apply map_ext. intros k.
    cbn [Nat.mul Nat.add substring]. reflexivity.
Qed.

(** X25. A string of lowercase hex digits of even length is reproduced
    by [hexToBytes] followed by [bytesToHex]: with C9, the two functions
    are inverse bijections between byte sequences and such strings. *)
Theorem hex_string_roundtrip (s : string) :
  Nat.even (String.length s) = true ->
  forallb is_lower_hex (list_ascii_of_string s) = true ->
  bytesToHex (hexToBytes s) (length (hexToBytes s)) = s.
Proof.
  intros Hev Hs. apply Nat.even_spec in Hev. destruct Hev as [n Hn].
  rewrite bytesToHex_hexs, hexToBytes_map, Hn, range_step_pairs, map_map.
  now apply hexs_of_pairs.
Qed.

Lemma hex_string_roundtrip_witness :
  Nat.even (String.length "00ff7a") = true
  /\ forallb is_lower_hex (list_ascii_of_string "00ff7a") = true
  /\ bytesToHex (hexToBytes "00ff7a") (length (hexToBytes "00ff7a")) = "00ff7a".
Proof.
  split; [reflexivity|]. split; [reflexivity|].
  exact (@hex_string_roundtrip "00ff7a" eq_refl eq_refl).
Defined.

End HexBack.

(* ================================================================== *)
(** ** File statistics ([showFileStats]) *)
(* ================================================================== *)

Record file_stats := { charCount : nat; letterCount : nat;
                       numberCount : nat; lineCount : nat }.

(** The body of [while (file.get(ch))]. *)
Definition count_char (st : file_stats) (b : byte) : file_stats :=
  let ch := ascii_of_byte b in
  {| charCount := charCount st + 1;
     letterCount := if isalpha ch then letterCount st + 1 else letterCount st;
     numberCount := if isdigit ch then numberCount st + 1 else numberCount st;
     lineCount := if Byte.eqb b x0a then lineCount st + 1 else lineCount st |}.

(** The four counters of [showFileStats] after the loop.  They are [int]
    in the code; the model counts without bound, which is the same for a
    file of fewer than [2^31] bytes. *)
Definition count_stats (data : list byte) : file_stats :=
  fold_left count_char data
            {| charCount := 0; letterCount := 0; numberCount := 0; lineCount := 0 |}.

Definition one_class (b : byte) : bool :=
  let ch := ascii_of_byte b in
  negb (isalpha ch && isdigit ch)
  && negb (isalpha ch && Byte.eqb b x0a)
  && negb (isdigit ch && Byte.eqb b x0a).

Lemma one_class_all : forall b, one_class b = true.
Proof. apply forall_byte. vm_compute. reflexivity. Qed.

Lemma count_stats_fold (data : list byte) :
  forall st,
    let r := fold_left count_char data st in
    charCount r = charCount st + length data
    /\ letterCount r + numberCount r + lineCount r + charCount st
       <= letterCount st + numberCount st + lineCount st + charCount r.
Proof.
  induction data as [|b data IH]; intros st; cbn [fold_left length].
  - cbv zeta. lia.
  - cbv zeta. destruct (IH (count_char st b)) as [H1 H2].
    split.
    + rewrite H1. cbn [count_char charCount]. lia.
    + pose proof (one_class_all b) as Hc. unfold one_class in Hc. cbv zeta in Hc.
      revert H2. unfold count_char. cbv zeta. cbn [charCount letterCount numberCount lineCount].
      destruct (isalpha (ascii_of_byte b)), (isdigit (ascii_of_byte b)),
        (Byte.eqb b x0a); try discriminate Hc; lia.
Qed.

(** X26. After the counting loop the character count is the number of
    bytes of the file, and letters, digits and line ends together never
    exceed it: no byte is counted in two of the three classes. *)
Theorem file_stats_bounds (data : list byte) :
  (N.of_nat (length data) < 2 ^ 31)%N ->
  charCount (count_stats data) = length data
  /\ letterCount (count_stats data) + numberCount (count_stats data)
     + lineCount (count_stats data) <= charCount (count_stats data).
Proof.
  intros _. unfold count_stats.
  destruct (count_stats_fold data
              {| charCount := 0; letterCount := 0; numberCount := 0; lineCount := 0 |})
    as [H1 H2].
  cbn [charCount letterCount numberCount lineCount] in H1, H2.
  split; [exact H1|lia].
Qed.

Lemma file_stats_bounds_witness :
  (N.of_nat (length (bytes_of_string "a1")) < 2 ^ 31)%N
  /\ charCount (count_stats (bytes_of_string "a1")) = 2.
Proof.
  split; [reflexivity|].
  exact (proj1 (@file_stats_bounds (bytes_of_string "a1") eq_refl)).
Defined.

(* ================================================================== *)
(** ** Chaining: a ciphertext block depends on what precedes it only *)
(* ================================================================== *)

Section Prefix.
Variable E : list byte -> list byte.

Lemma cbc_enc_firstn (k : nat) :
  forall L L' prev,
    firstn k L = firstn k L' ->
    firstn k (cbc_enc E prev L) = firstn k (cbc_enc E prev L').
Proof.
  induction k as [|k IH]; intros L L' prev H; [reflexivity|].
  destruct L as [|b t], L' as [|b' t']; try discriminate H; [reflexivity|].
  cbn [firstn] in H. injection H as <- H.
  cbn [cbc_enc firstn]. f_equal. now apply IH.
Qed.
End Prefix.

Lemma rd_firstn (X : list byte) (m j : nat) : j < m -> rd (firstn m X) j = rd X j.
Proof.
  intros H. unfold rd. rewrite nth_firstn.
  destruct (Nat.ltb_spec j m); [reflexivity|lia].
Qed.

Lemma firstn_seq_le (k : nat) :
  forall lo n, k <= n -> firstn k (seq lo n) = seq lo k.
Proof.
  induction k as [|k IH]; intros lo n H; [reflexivity|].
  destruct n as [|n]; [lia|]. cbn [seq firstn]. f_equal. apply IH. lia.
Qed.

Lemma firstn_chunks (X : list byte) (k : nat) :
  16 * k <= length X ->
  firstn k (chunks X) = chunks (firstn (16 * k) X).
Proof.
  intros Hk. unfold chunks.
  assert (Hn : k <= length X / 16) by (apply Nat.div_le_lower_bound; lia).
  rewrite firstn_map, firstn_seq_le by exact Hn.
  rewrite length_firstn, Nat.min_l by exact Hk.
  rewrite Nat.mul_comm, Nat.div_mul by lia.
  apply map_ext_in. intros i Hi. apply in_seq in Hi.
  apply KeyFacts.slice_ext. intros j Hj. symmetry. apply rd_firstn. lia.
Qed.

Lemma firstn_concat16 (cs : list (list byte)) :
  Forall block16 cs ->
  forall k, firstn (16 * k) (concat cs) = concat (firstn k cs).
Proof.
  induction 1 as [|b cs Hb Hcs IH]; intros k.
  - now rewrite !firstn_nil.
  - destruct k as [|k]; [reflexivity|].
    cbn [concat firstn]. rewrite firstn_app, Hb.
    replace (16 * S k - 16) with (16 * k) by lia.
    rewrite firstn_all2 by (rewrite Hb; lia). now rewrite IH.
Qed.

(** X27. With one key and one IV, the ciphertexts of two plaintexts that
    begin with the same [k] full blocks begin with the same [16 + 16 k]
    bytes: a ciphertext block depends on the blocks before it and on no
    later byte of the plaintext. *)
Theorem encrypt_common_prefix (c : AESCipher) (iv P P' : list byte) (k : nat) :
  length iv = 16 ->
  16 * k <= length P -> 16 * k <= length P' ->
  firstn (16 * k) P = firstn (16 * k) P' ->
  firstn (16 + 16 * k) (encrypt c (Some iv) P)
  = firstn (16 + 16 * k) (encrypt c (Some iv) P').
Proof.
  intros Hiv Hk Hk' H. unfold encrypt. rewrite !encrypt_outcome_blocks.
  cbn [value_of].
  set (E := AES256Impl.encryptBlock (ctx c)).
  assert (HE : forall X, Forall block16 (cbc_enc E iv (chunks X))).
  { intros X. apply Forall_cbc_enc. intros b.
    apply RoundFacts.length_encryptBlock. }
  rewrite !firstn_app, Hiv.
  replace (16 + 16 * k - 16) with (16 * k) by lia.
  rewrite !firstn_concat16 by apply HE.
  do 2 f_equal. apply cbc_enc_firstn.
  rewrite !firstn_chunks by (rewrite length_pkcs7Pad; lia).
  f_equal. unfold pkcs7Pad. rewrite !firstn_app.
  replace (16 * k - length P) with 0 by lia.
  replace (16 * k - length P') with 0 by lia.
  cbn [firstn]. now rewrite !app_nil_r.
Qed.

Lemma encrypt_common_prefix_witness :
  length zero_block = 16
  /\ 16 * 1 <= length (repeat x61 16 ++ [x62])
  /\ 16 * 1 <= length (repeat x61 16 ++ [x63; x64])
  /\ firstn (16 * 1) (repeat x61 16 ++ [x62])
     = firstn (16 * 1) (repeat x61 16 ++ [x63; x64])
  /\ firstn (16 + 16 * 1) (encrypt pw_cipher (Some zero_block) (repeat x61 16 ++ [x62]))
     = firstn (16 + 16 * 1)
              (encrypt pw_cipher (Some zero_block) (repeat x61 16 ++ [x63; x64])).
Proof.
  assert (H1 : 16 * 1 <= length (repeat x61 16 ++ [x62])) by (cbn; lia).
  assert (H2 : 16 * 1 <= length (repeat x61 16 ++ [x63; x64])) by (cbn; lia).
  split; [reflexivity|]. split; [exact H1|]. split; [exact H2|].
  split; [reflexivity|].
  exact (@encrypt_common_prefix pw_cipher zero_block
           (repeat x61 16 ++ [x62]) (repeat x61 16 ++ [x63; x64]) 1
           eq_refl H1 H2 eq_refl).
Defined.
